(** * Sparkify data-lake ETL: a shallow embedding of [etl.py]

    [etl.py] is a PySpark batch job.  [process_song_data] turns the song
    catalog into the songs and artists tables, [process_log_data] turns the
    activity log into the users, time and songplays tables, and [main] runs
    the first and then the second against one output root.

    A dataframe is embedded as the list of its rows, a nullable column as an
    [option], and the output root as a [Store] threaded through a small
    state-and-error monad.  What Spark leaves to the execution engine (the
    row that survives [dropDuplicates], the values handed out by
    [monotonically_increasing_id], the time zone and the week numbering of
    the locale) is gathered in an [Engine] record, so that every function
    below computes once an engine is fixed, and a statement that holds for
    every engine holds for every run.  Row order inside a dataframe is the
    first-seen order; the statements proved here only speak about
    membership and row counts. *)

From Stdlib Require Import ZArith String Ascii Bool Lia QArith DecimalString List.
From Stdlib Require Import Sorted Permutation.
Import ListNotations.

Local Open Scope string_scope.
Local Open Scope Z_scope.

(** ** Nullable columns *)

(** Column equality as used in [where] and in join conditions: the
    comparison is null as soon as one side is null, and a null condition
    selects nothing. *)
Definition sql_eq {A : Type} (eqb : A -> A -> bool) (x y : option A) : bool :=
  match x, y with
  | Some a, Some b => eqb a b
  | _, _ => false
  end.

(** Grouping equality as used by [dropDuplicates]: two nulls fall in the
    same group. *)
Definition null_safe_eq {A : Type} (eqb : A -> A -> bool) (x y : option A) : bool :=
  match x, y with
  | Some a, Some b => eqb a b
  | None, None => true
  | _, _ => false
  end.

Definition string_key_eqb : option string -> option string -> bool :=
  null_safe_eq String.eqb.

Definition long_key_eqb : option Z -> option Z -> bool :=
  null_safe_eq Z.eqb.

Definition pair_key_eqb (a b : option string * option string) : bool :=
  string_key_eqb (fst a) (fst b) && string_key_eqb (snd a) (snd b).

(** ** The execution engine *)

Record Engine : Type := {
  (** [tie_break table n]: position, inside a group of [n] duplicate rows of
      the [dropDuplicates] call that builds [table], of the row that is
      kept (a position past the end keeps the first row). *)
  tie_break : string -> nat -> nat;
  (** [id_gap k]: how many values [monotonically_increasing_id] skips
      before it numbers row [k]. *)
  id_gap : nat -> N;
  (** Seconds east of UTC of the local time zone at a given UTC second. *)
  utc_offset : Z -> Z;
  (** Week number given to a local epoch day by pattern letter [w] of the
      legacy formatter, which depends on the locale. *)
  week_of_year : Z -> Z
}.

(** ** dropDuplicates

    Spark plans [dropDuplicates(subset)] as a grouping on the subset
    columns followed by [first] on the others, and which row of a group
    comes first is up to the engine. *)

Section DropDuplicates.

Context {A K : Type}.
Variable key : A -> K.
Variable key_eqb : K -> K -> bool.

Record group : Type := {
  gkey : K;
  ghead : A;
  gtail : list A
}.

Definition members (g : group) : list A := ghead g :: gtail g.

Fixpoint insert_group (x : A) (gs : list group) : list group :=
  match gs with
  | [] => [ {| gkey := key x; ghead := x; gtail := [] |} ]
  | g :: gs' =>
      if key_eqb (gkey g) (key x)
      then {| gkey := gkey g; ghead := ghead g; gtail := gtail g ++ [x] |} :: gs'
      else g :: insert_group x gs'
  end.

Definition groupBy (l : list A) : list group :=
  fold_left (fun gs x => insert_group x gs) l [].

Definition first (tie : nat -> nat) (g : group) : A :=
  nth (tie (length (members g))) (members g) (ghead g).

Definition dropDuplicates (tie : nat -> nat) (l : list A) : list A :=
  map (first tie) (groupBy l).

(** How many rows of [l] carry the key [k]. *)
Definition count_key (k : K) (l : list A) : nat :=
  length (filter (fun r => key_eqb (key r) k) l).

Definition groups_ok (gs : list group) : Prop :=
  NoDup (map gkey gs) /\
  forall g, In g gs -> forall x, In x (members g) -> key x = gkey g.

End DropDuplicates.

Arguments group : clear implicits.
Arguments gkey {A K} _.
Arguments ghead {A K} _.
Arguments gtail {A K} _.

(** ** Input schemas

    [song_schema] and [log_schema]: every field is nullable.  The float
    columns are only carried from input to output, never computed with, and
    are held as rationals. *)

Module Song.
Record record : Type := {
  artist_id : option string;
  artist_latitude : option Q;
  artist_location : option string;
  artist_longitude : option Q;
  artist_name : option string;
  duration : option Q;
  num_songs : option Z;
  song_id : option string;
  title : option string;
  year : option Z
}.
End Song.

Module Log.
Record record : Type := {
  artist : option string;
  auth : option string;
  firstName : option string;
  gender : option string;
  itemInSession : option Z;
  lastName : option string;
  level : option string;
  location : option string;
  method : option string;
  page : option string;
  registration : option Z;
  sessionId : option Z;
  song : option string;
  status : option Z;
  ts : option Z;
  userAgent : option string;
  userId : option Z
}.
End Log.

(** ** Output tables *)

Module SongsTable.
Record row : Type := {
  song_id : option string;
  artist_id : option string;
  title : option string;
  year : option Z;
  duration : option Q
}.
End SongsTable.

Module ArtistsTable.
Record row : Type := {
  artist_id : option string;
  artist_name : option string;
  artist_location : option string;
  artist_latitude : option Q;
  artist_longitude : option Q;
  num_songs : option Z
}.
End ArtistsTable.

Module UsersTable.
Record row : Type := {
  userId : option Z;
  firstName : option string;
  lastName : option string;
  gender : option string;
  level : option string
}.
End UsersTable.

(** [datetime] is the instant, counted in milliseconds since the epoch;
    [hour] is the integer column made by [hour()], the five others are the
    strings made by [date_format]. *)
Module TimeTable.
Record row : Type := {
  ts : option Z;
  datetime : Z;
  hour : Z;
  year : string;
  month : string;
  week : string;
  day : string;
  weekday : string
}.
End TimeTable.

(** The projection [songplays], before the join with the time table. *)
Module Songplays.
Record row : Type := {
  songplay_id : Z;
  start_time : option Z;
  user_id : option Z;
  level : option string;
  song_id : option string;
  artist_id : option string;
  session_id : option Z;
  location : option string;
  user_agent : option string
}.
End Songplays.

Module SongplaysTable.
Record row : Type := {
  songplay_id : Z;
  start_time : option Z;
  user_id : option Z;
  level : option string;
  song_id : option string;
  artist_id : option string;
  session_id : option Z;
  location : option string;
  user_agent : option string;
  year : string;
  month : string
}.
End SongplaysTable.

(** ** Calendar

    Days are counted from 1970-01-01 in the proleptic Gregorian calendar. *)

Definition civil_from_days (n : Z) : Z * Z * Z :=
  let shifted := n + 719468 in
  let era := shifted / 146097 in
  let day_of_era := shifted - era * 146097 in
  let year_of_era :=
    (day_of_era - day_of_era / 1460 + day_of_era / 36524 - day_of_era / 146096) / 365 in
  let day_of_year := day_of_era - (365 * year_of_era + year_of_era / 4 - year_of_era / 100) in
  let mp := (5 * day_of_year + 2) / 153 in
  let d := day_of_year - (153 * mp + 2) / 5 + 1 in
  let m := if mp <? 10 then mp + 3 else mp - 9 in
  (year_of_era + era * 400 + (if m <=? 2 then 1 else 0), m, d).

Definition days_from_civil (y m d : Z) : Z :=
  let y' := if m <=? 2 then y - 1 else y in
  let era := y' / 400 in
  let year_of_era := y' - era * 400 in
  let mp := if 2 <? m then m - 3 else m + 9 in
  let day_of_year := (153 * mp + 2) / 5 + d - 1 in
  let day_of_era := year_of_era * 365 + year_of_era / 4 - year_of_era / 100 + day_of_year in
  era * 146097 + day_of_era - 719468.

(** [days_from_civil] undoes [civil_from_days] on the [count] days that
    start at day [n]. *)
Fixpoint civil_round_trip (count : nat) (n : Z) : bool :=
  match count with
  | O => true
  | S count' =>
      (let '(y, m, d) := civil_from_days n in days_from_civil y m d =? n)
      && civil_round_trip count' (n + 1)
  end.

(** Day of the week of an epoch day, Sunday being 0. *)
Definition day_of_week (n : Z) : Z := (n + 4) mod 7.

(** Week numbering of the US locale: weeks start on Sunday, week 1 is the
    one that holds 1 January, and the days of December that share their
    week with the next 1 January already count as week 1. *)
Definition us_week_of_year (n : Z) : Z :=
  let '(y, _, _) := civil_from_days n in
  let jan1 := days_from_civil y 1 1 in
  let next_jan1 := days_from_civil (y + 1) 1 1 in
  if next_jan1 <=? n - day_of_week n + 6 then 1
  else (n - jan1 + day_of_week jan1) / 7 + 1.

Section LocalTime.

Variable E : Engine.

Definition epoch_second (dt : Z) : Z := dt / 1000.

Definition local_second (dt : Z) : Z :=
  epoch_second dt + utc_offset E (epoch_second dt).

Definition local_day (dt : Z) : Z := local_second dt / 86400.

Definition local_date (dt : Z) : Z * Z * Z := civil_from_days (local_day dt).

(** [hour('datetime')]. *)
Definition hour (dt : Z) : Z := (local_second dt mod 86400) / 3600.

Definition decimal (n : Z) : string := NilZero.string_of_int (Z.to_int n).

(** [date_format(col, pattern)] under the legacy time parser policy set
    by [create_spark_session], for the one-letter patterns that [etl.py]
    uses: [y] year, [M] month, [w] week in year, [d] day in month and
    [F] day of week in month (the first seven days of a month give 1, the
    next seven 2, and so on).  Other patterns are not modelled and give
    the empty string. *)
Definition date_format (dt : Z) (pattern : string) : string :=
  let '(y, m, d) := local_date dt in
  if (pattern =? "y")%string then decimal y
  else if (pattern =? "M")%string then decimal m
  else if (pattern =? "w")%string then decimal (week_of_year E (local_day dt))
  else if (pattern =? "d")%string then decimal d
  else if (pattern =? "F")%string then decimal ((d - 1) / 7 + 1)
  else "".

End LocalTime.

(** ** Failures, the output root and the job monad *)

Inductive error : Type :=
| TypeError            (* the timestamp callback applied to a null *)
| ValueError           (* the timestamp callback applied past the calendar *)
| AnalysisException (path : string).  (* reading a table that was never written *)

Inductive outcome (A : Type) : Type :=
| Ok (a : A)
| Err (e : error).

Arguments Ok {A} a.
Arguments Err {A} e.

(** The five parquet directories under [output_data], each held as the
    rows handed to its writer; [None] is a path with no table to read. *)
Record Store : Type := {
  songs_parquet : option (list SongsTable.row);
  artists_parquet : option (list ArtistsTable.row);
  users_parquet : option (list UsersTable.row);
  time_parquet : option (list TimeTable.row);
  songplays_parquet : option (list SongplaysTable.row)
}.

Definition empty_store : Store :=
  {| songs_parquet := None; artists_parquet := None; users_parquet := None;
     time_parquet := None; songplays_parquet := None |}.

(** A job step reads and writes the store and may fail; what was written
    before a failure stays written. *)
Definition Job (A : Type) : Type := Store -> outcome A * Store.

Definition ret {A : Type} (a : A) : Job A := fun s => (Ok a, s).

Definition bind {A B : Type} (c : Job A) (k : A -> Job B) : Job B :=
  fun s =>
    match c s with
    | (Ok a, s') => k a s'
    | (Err e, s') => (Err e, s')
    end.

Definition lift {A : Type} (o : outcome A) : Job A := fun s => (o, s).

Notation "x <- c ;; k" := (bind c (fun x => k))
  (at level 61, c at next level, right associativity).
Notation "c ;; k" := (bind c (fun _ => k))
  (at level 61, right associativity).

(** [write.mode("overwrite").parquet(path)]: the former content of the
    path is replaced.  [partitionBy] only lays the same rows out in
    sub-directories. *)
Definition write_songs (t : list SongsTable.row) : Job unit :=
  fun s => (Ok tt,
    {| songs_parquet := Some t; artists_parquet := artists_parquet s;
       users_parquet := users_parquet s; time_parquet := time_parquet s;
       songplays_parquet := songplays_parquet s |}).

Definition write_artists (t : list ArtistsTable.row) : Job unit :=
  fun s => (Ok tt,
    {| songs_parquet := songs_parquet s; artists_parquet := Some t;
       users_parquet := users_parquet s; time_parquet := time_parquet s;
       songplays_parquet := songplays_parquet s |}).

Definition write_users (t : list UsersTable.row) : Job unit :=
  fun s => (Ok tt,
    {| songs_parquet := songs_parquet s; artists_parquet := artists_parquet s;
       users_parquet := Some t; time_parquet := time_parquet s;
       songplays_parquet := songplays_parquet s |}).

(** The time table is handed over as the lazy dataframe it is: the
    overwrite empties the path first and only then runs the job that
    computes the rows, timestamp callback included, so that a failing
    callback leaves nothing to read at the path. *)
Definition write_time (t : outcome (list TimeTable.row)) : Job unit :=
  fun s =>
    match t with
    | Ok rows =>
        (Ok tt,
         {| songs_parquet := songs_parquet s; artists_parquet := artists_parquet s;
            users_parquet := users_parquet s; time_parquet := Some rows;
            songplays_parquet := songplays_parquet s |})
    | Err e =>
        (Err e,
         {| songs_parquet := songs_parquet s; artists_parquet := artists_parquet s;
            users_parquet := users_parquet s; time_parquet := None;
            songplays_parquet := songplays_parquet s |})
    end.

Definition write_songplays (t : list SongplaysTable.row) : Job unit :=
  fun s => (Ok tt,
    {| songs_parquet := songs_parquet s; artists_parquet := artists_parquet s;
       users_parquet := users_parquet s; time_parquet := time_parquet s;
       songplays_parquet := Some t |}).

(** [spark.read.parquet("{}/songs.parquet")].  A partitioned write of no
    row leaves no file, and the read then fails like the read of a missing
    path.  The partition columns [year] and [artist_id] are taken back as
    they were written. *)
Definition read_songs : Job (list SongsTable.row) :=
  fun s =>
    match songs_parquet s with
    | Some (r :: t) => (Ok (r :: t), s)
    | Some [] => (Err (AnalysisException "songs.parquet"), s)
    | None => (Err (AnalysisException "songs.parquet"), s)
    end.

(** ** Dataframe operations *)

Fixpoint traverse {A B : Type} (f : A -> outcome B) (l : list A) : outcome (list B) :=
  match l with
  | [] => Ok []
  | x :: xs =>
      match f x with
      | Err e => Err e
      | Ok y =>
          match traverse f xs with
          | Err e => Err e
          | Ok ys => Ok (y :: ys)
          end
      end
  end.

(** [orderBy] on a nullable string column: ascending, nulls first. *)
Definition nulls_first_leb (a b : option string) : bool :=
  match a, b with
  | None, _ => true
  | Some _, None => false
  | Some x, Some y => String.leb x y
  end.

Fixpoint insert_ordered {A : Type} (col : A -> option string) (x : A) (l : list A) : list A :=
  match l with
  | [] => [x]
  | y :: l' =>
      if nulls_first_leb (col x) (col y) then x :: y :: l'
      else y :: insert_ordered col x l'
  end.

Definition orderBy {A : Type} (col : A -> option string) (l : list A) : list A :=
  fold_right (insert_ordered col) [] l.

(** [monotonically_increasing_id]: row [k] gets the next free value after
    skipping [gap k] values, so the ids grow strictly along the rows. *)
Fixpoint with_ids {A : Type} (gap : nat -> N) (k : nat) (next : Z) (rows : list A)
  : list (Z * A) :=
  match rows with
  | [] => []
  | r :: rs =>
      let i := next + Z.of_N (gap k) in
      (i, r) :: with_ids gap (S k) (i + 1) rs
  end.

Definition monotonically_increasing_id {A : Type} (E : Engine) (rows : list A)
  : list (Z * A) :=
  with_ids (id_gap E) 0%nat 0 rows.

(** ** process_song_data *)

Definition select_songs (r : Song.record) : SongsTable.row :=
  {| SongsTable.song_id := Song.song_id r;
     SongsTable.artist_id := Song.artist_id r;
     SongsTable.title := Song.title r;
     SongsTable.year := Song.year r;
     SongsTable.duration := Song.duration r |}.

Definition songs_key (r : SongsTable.row) : option string * option string :=
  (SongsTable.song_id r, SongsTable.artist_id r).

Definition songs_table (E : Engine) (df : list Song.record) : list SongsTable.row :=
  dropDuplicates songs_key pair_key_eqb (tie_break E "songs") (map select_songs df).

Definition select_artists (r : Song.record) : ArtistsTable.row :=
  {| ArtistsTable.artist_id := Song.artist_id r;
     ArtistsTable.artist_name := Song.artist_name r;
     ArtistsTable.artist_location := Song.artist_location r;
     ArtistsTable.artist_latitude := Song.artist_latitude r;
     ArtistsTable.artist_longitude := Song.artist_longitude r;
     ArtistsTable.num_songs := Song.num_songs r |}.

Definition artists_table (E : Engine) (df : list Song.record) : list ArtistsTable.row :=
  dropDuplicates ArtistsTable.artist_id string_key_eqb (tie_break E "artists")
    (orderBy ArtistsTable.artist_id (map select_artists df)).

Definition process_song_data (E : Engine) (song_data : list Song.record) : Job unit :=
  let df := song_data in
  write_songs (songs_table E df) ;;
  write_artists (artists_table E df).

(** ** process_log_data *)

(** [df.where(df.page == 'NextSong')]. *)
Definition where_NextSong (df : list Log.record) : list Log.record :=
  filter (fun r => sql_eq String.eqb (Log.page r) (Some "NextSong")) df.

Definition select_users (r : Log.record) : UsersTable.row :=
  {| UsersTable.userId := Log.userId r;
     UsersTable.firstName := Log.firstName r;
     UsersTable.lastName := Log.lastName r;
     UsersTable.gender := Log.gender r;
     UsersTable.level := Log.level r |}.

Definition users_table (E : Engine) (df : list Log.record) : list UsersTable.row :=
  dropDuplicates UsersTable.userId long_key_eqb (tie_break E "users") (map select_users df).

(** [udf(lambda x: datetime.fromtimestamp(x/1000), TimestampType())].
    The callback receives [None] for a null and then fails on the
    division; [fromtimestamp] fails outside the years 1 to 9999 of the
    local calendar.  Inside that range the float quotient has the same
    whole seconds as the integer quotient. *)
Definition get_timestamp (E : Engine) (x : option Z) : outcome Z :=
  match x with
  | None => Err TypeError
  | Some ms =>
      let '(y, _, _) := local_date E ms in
      if (1 <=? y) && (y <=? 9999) then Ok ms else Err ValueError
  end.

(** The chain of [withColumn] calls on one row of distinct [ts]. *)
Definition time_row (E : Engine) (x : option Z) : outcome TimeTable.row :=
  match get_timestamp E x with
  | Err e => Err e
  | Ok dt =>
      Ok {| TimeTable.ts := x;
            TimeTable.datetime := dt;
            TimeTable.hour := hour E dt;
            TimeTable.year := date_format E dt "y";
            TimeTable.month := date_format E dt "M";
            TimeTable.week := date_format E dt "w";
            TimeTable.day := date_format E dt "d";
            TimeTable.weekday := date_format E dt "F" |}
  end.

(** [df.select('ts').dropDuplicates()]. *)
Definition distinct_ts (E : Engine) (df : list Log.record) : list (option Z) :=
  dropDuplicates (fun x => x) long_key_eqb (tie_break E "time") (map Log.ts df).

Definition time_table (E : Engine) (df : list Log.record) : outcome (list TimeTable.row) :=
  traverse (time_row E) (distinct_ts E df).

(** [df.join(song_df, df.song == song_df.song_id, 'left')]. *)
Definition song_matches (song_df : list SongsTable.row) (e : Log.record)
  : list SongsTable.row :=
  filter (fun s => sql_eq String.eqb (Log.song e) (SongsTable.song_id s)) song_df.

Definition left_join (df : list Log.record) (song_df : list SongsTable.row)
  : list (Log.record * option SongsTable.row) :=
  flat_map
    (fun e =>
       match song_matches song_df e with
       | [] => [(e, None)]
       | ms => map (fun s => (e, Some s)) ms
       end)
    df.

Definition songplays_all_columns (E : Engine) (df : list Log.record)
    (song_df : list SongsTable.row)
  : list (Z * (Log.record * option SongsTable.row)) :=
  monotonically_increasing_id E (left_join df song_df).

Definition select_songplays (r : Z * (Log.record * option SongsTable.row)) : Songplays.row :=
  let '(idx, (e, s)) := r in
  {| Songplays.songplay_id := idx;
     Songplays.start_time := Log.ts e;
     Songplays.user_id := Log.userId e;
     Songplays.level := Log.level e;
     Songplays.song_id := match s with Some s => SongsTable.song_id s | None => None end;
     Songplays.artist_id := match s with Some s => SongsTable.artist_id s | None => None end;
     Songplays.session_id := Log.sessionId e;
     Songplays.location := Log.location e;
     Songplays.user_agent := Log.userAgent e |}.

Definition songplays (E : Engine) (df : list Log.record) (song_df : list SongsTable.row)
  : list Songplays.row :=
  map select_songplays (songplays_all_columns E df song_df).

(** [songplays.join(time_table, songplays.start_time == time_table.ts, 'inner')]
    and the final [select]. *)
Definition time_matches (time_df : list TimeTable.row) (p : Songplays.row)
  : list TimeTable.row :=
  filter (fun t => sql_eq Z.eqb (Songplays.start_time p) (TimeTable.ts t)) time_df.

Definition select_songplays_table (p : Songplays.row) (t : TimeTable.row)
  : SongplaysTable.row :=
  {| SongplaysTable.songplay_id := Songplays.songplay_id p;
     SongplaysTable.start_time := Songplays.start_time p;
     SongplaysTable.user_id := Songplays.user_id p;
     SongplaysTable.level := Songplays.level p;
     SongplaysTable.song_id := Songplays.song_id p;
     SongplaysTable.artist_id := Songplays.artist_id p;
     SongplaysTable.session_id := Songplays.session_id p;
     SongplaysTable.location := Songplays.location p;
     SongplaysTable.user_agent := Songplays.user_agent p;
     SongplaysTable.year := TimeTable.year t;
     SongplaysTable.month := TimeTable.month t |}.

Definition songplays_table (sp : list Songplays.row) (time_df : list TimeTable.row)
  : list SongplaysTable.row :=
  flat_map (fun p => map (select_songplays_table p) (time_matches time_df p)) sp.

Definition process_log_data (E : Engine) (log_data : list Log.record) : Job unit :=
  let df := where_NextSong log_data in
  write_users (users_table E df) ;;
  write_time (time_table E df) ;;
  song_df <- read_songs ;;
  (* the songplays job evaluates the lazy time table once more *)
  time_df <- lift (time_table E df) ;;
  write_songplays (songplays_table (songplays E df song_df) time_df).

(** ** main *)

Record Input : Type := {
  song_data : list Song.record;
  log_data : list Log.record
}.

Definition main (E : Engine) (input_data : Input) : Job unit :=
  process_song_data E (song_data input_data) ;;
  process_log_data E (log_data input_data).

(** ** Views used in the statements *)

(** Rows that the left join makes of one event. *)
Definition rows_of_event (song_df : list SongsTable.row) (e : Log.record) : nat :=
  Nat.max 1 (length (song_matches song_df e)).

(** The nine columns of a songplays row that come from the projection. *)
Definition projected_columns (r : SongplaysTable.row) : Songplays.row :=
  {| Songplays.songplay_id := SongplaysTable.songplay_id r;
     Songplays.start_time := SongplaysTable.start_time r;
     Songplays.user_id := SongplaysTable.user_id r;
     Songplays.level := SongplaysTable.level r;
     Songplays.song_id := SongplaysTable.song_id r;
     Songplays.artist_id := SongplaysTable.artist_id r;
     Songplays.session_id := SongplaysTable.session_id r;
     Songplays.location := SongplaysTable.location r;
     Songplays.user_agent := SongplaysTable.user_agent r |}.


Definition songplays_partition (r : SongplaysTable.row) : string * string :=
  (SongplaysTable.year r, SongplaysTable.month r).

(** ** Concrete engines and inputs *)

(** A JVM in UTC with the US locale that keeps the first row of a group of
    duplicates and numbers the rows of one partition from 0. *)
Definition utc_engine : Engine :=
  {| tie_break := fun _ _ => 0%nat;
     id_gap := fun _ => 0%N;
     utc_offset := fun _ => 0;
     week_of_year := us_week_of_year |}.

(** The same engine, except that the last row of a group of duplicates is
    kept and that the numbering starts in a later partition. *)
Definition other_engine : Engine :=
  {| tie_break := fun _ n => Nat.pred n;
     id_gap := fun k => match k with O => 8589934592%N | S _ => 0%N end;
     utc_offset := fun _ => 0;
     week_of_year := us_week_of_year |}.

Definition null_event : Log.record :=
  {| Log.artist := None; Log.auth := None; Log.firstName := None;
     Log.gender := None; Log.itemInSession := None; Log.lastName := None;
     Log.level := None; Log.location := None; Log.method := None;
     Log.page := None; Log.registration := None; Log.sessionId := None;
     Log.song := None; Log.status := None; Log.ts := None;
     Log.userAgent := None; Log.userId := None |}.

Definition catalog_record (sid aid name : string) (y : Z) (dur : Q) : Song.record :=
  {| Song.artist_id := Some aid; Song.artist_latitude := None;
     Song.artist_location := None; Song.artist_longitude := None;
     Song.artist_name := None; Song.duration := Some dur; Song.num_songs := None;
     Song.song_id := Some sid; Song.title := Some name; Song.year := Some y |}.

Definition log_record (pg sg : string) (t u : Z) : Log.record :=
  {| Log.artist := None; Log.auth := None; Log.firstName := None;
     Log.gender := None; Log.itemInSession := None; Log.lastName := None;
     Log.level := None; Log.location := None; Log.method := None;
     Log.page := Some pg; Log.registration := None; Log.sessionId := None;
     Log.song := Some sg; Log.status := None; Log.ts := Some t;
     Log.userAgent := None; Log.userId := Some u |}.

(** The end-to-end scenario: one catalog record and one play event. *)
Definition scenario : Input :=
  {| song_data := [catalog_record "S1" "A1" "Song A" 2000 (200 # 1)];
     log_data := [log_record "NextSong" "Song A" 1541121934796 8] |}.

(** One play event whose [song] text is the [song_id] shared by two
    catalog records of different artists. *)
Definition shared_song_id : Input :=
  {| song_data := [catalog_record "S1" "A1" "Song A" 2000 (200 # 1);
                   catalog_record "S1" "A2" "Song A" 2000 (200 # 1)];
     log_data := [log_record "NextSong" "S1" 1541121934796 8] |}.

(** Two play events one week apart: Friday 2 and Friday 9 November 2018,
    both at 01:25:34 UTC. *)
Definition two_fridays : list Log.record :=
  [log_record "NextSong" "Song A" 1541121934796 8;
   log_record "NextSong" "Song A" 1541726734796 8].

(** The store left by a run of the scenario on an empty output root. *)
Definition scenario_store : Store := snd (main utc_engine scenario empty_store).

(** A songplays row with its synthetic id blanked, to compare rows up to
    the id. *)
Definition forget_songplay_id (r : SongplaysTable.row) : SongplaysTable.row :=
  {| SongplaysTable.songplay_id := 0;
     SongplaysTable.start_time := SongplaysTable.start_time r;
     SongplaysTable.user_id := SongplaysTable.user_id r;
     SongplaysTable.level := SongplaysTable.level r;
     SongplaysTable.song_id := SongplaysTable.song_id r;
     SongplaysTable.artist_id := SongplaysTable.artist_id r;
     SongplaysTable.session_id := SongplaysTable.session_id r;
     SongplaysTable.location := SongplaysTable.location r;
     SongplaysTable.user_agent := SongplaysTable.user_agent r;
     SongplaysTable.year := SongplaysTable.year r;
     SongplaysTable.month := SongplaysTable.month r |}.

(** The part of [civil_from_days] that only looks at the day inside its
    400-year era: year of the era, month and day of the month. *)
Definition date_in_era (day_of_era : Z) : Z * Z * Z :=
  let year_of_era :=
    (day_of_era - day_of_era / 1460 + day_of_era / 36524 - day_of_era / 146096) / 365 in
  let day_of_year := day_of_era - (365 * year_of_era + year_of_era / 4 - year_of_era / 100) in
  let mp := (5 * day_of_year + 2) / 153 in
  let d := day_of_year - (153 * mp + 2) / 5 + 1 in
  let m := if mp <? 10 then mp + 3 else mp - 9 in
  (year_of_era, m, d).

(** The day of the era that [days_from_civil] computes back from a year
    of the era, a month and a day of the month. *)
Definition day_of_era_of_date (year_of_era m d : Z) : Z :=
  let mp := if 2 <? m then m - 3 else m + 9 in
  year_of_era * 365 + year_of_era / 4 - year_of_era / 100 + ((153 * mp + 2) / 5 + d - 1).

(** On the [count] days of an era that start at [day_of_era], the year
    of the era is below 400, the month between 1 and 12, the day between 1
    and 31, and the date gives the day of the era back. *)
Fixpoint era_days_checked (count : nat) (day_of_era : Z) : bool :=
  match count with
  | O => true
  | S count' =>
      (let '(y, m, d) := date_in_era day_of_era in
       (0 <=? y) && (y <=? 399) && (1 <=? m) && (m <=? 12) && (1 <=? d) && (d <=? 31)
       && (day_of_era_of_date y m d =? day_of_era))
      && era_days_checked count' (day_of_era + 1)
  end.

(** The group made of one row. *)
Definition single {A K : Type} (key : A -> K) (x : A) : group A K :=
  {| gkey := key x; ghead := x; gtail := [] |}.


(** A log without play events: a record without page and a "Home" page. *)
Definition other_pages_input : Input :=
  {| song_data := [catalog_record "S1" "A1" "Song A" 2000 (200 # 1)];
     log_data := [null_event; log_record "Home" "Song A" 1541121934796 8] |}.

(** The scenario with its catalog record and its play event both read
    twice. *)
Definition repeated_scenario : Input :=
  {| song_data := [catalog_record "S1" "A1" "Song A" 2000 (200 # 1);
                   catalog_record "S1" "A1" "Song A" 2000 (200 # 1)];
     log_data := [log_record "NextSong" "Song A" 1541121934796 8;
                  log_record "NextSong" "Song A" 1541121934796 8] |}.

(** A songplays row carries the columns of an event. *)
Definition carries_event (r : SongplaysTable.row) (e : Log.record) : Prop :=
  SongplaysTable.start_time r = Log.ts e /\
  SongplaysTable.user_id r = Log.userId e /\
  SongplaysTable.level r = Log.level e /\
  SongplaysTable.session_id r = Log.sessionId e /\
  SongplaysTable.location r = Log.location e /\
  SongplaysTable.user_agent r = Log.userAgent e.

(** The columns that the left join settles: those taken from the event,
    and the song id. *)
Definition join_columns : Type :=
  option Z * option Z * option string * option string * option Z
  * option string * option string.

Definition written_columns (r : SongplaysTable.row) : join_columns :=
  (SongplaysTable.start_time r, SongplaysTable.user_id r, SongplaysTable.level r,
   SongplaysTable.song_id r, SongplaysTable.session_id r, SongplaysTable.location r,
   SongplaysTable.user_agent r).

Definition candidate_columns (p : Songplays.row) : join_columns :=
  (Songplays.start_time p, Songplays.user_id p, Songplays.level p,
   Songplays.song_id p, Songplays.session_id p, Songplays.location p,
   Songplays.user_agent p).

Definition event_columns (e : Log.record) (song_id : option string) : join_columns :=
  (Log.ts e, Log.userId e, Log.level e, song_id, Log.sessionId e, Log.location e,
   Log.userAgent e).

(** What a left join on [song == song_id] owes to one event: one row
    without song when no songs row has the event's [song] text as its
    [song_id], and otherwise one row with that text as [song_id] for each
    songs row that has it. *)
Definition rows_owed (song_df : list SongsTable.row) (e : Log.record)
  : list join_columns :=
  match length (song_matches song_df e) with
  | O => [event_columns e None]
  | S n => repeat (event_columns e (Log.song e)) (S n)
  end.

(** * Properties *)

(** ** Facts about dropDuplicates *)

Section DropDuplicatesFacts.

Context {A K : Type}.
Variable key : A -> K.
Variable key_eqb : K -> K -> bool.

Local Abbreviation insert_group := (insert_group key key_eqb).
Local Abbreviation groupBy := (groupBy key key_eqb).
Local Abbreviation dropDuplicates := (dropDuplicates key key_eqb).
Local Abbreviation count_key := (count_key key key_eqb).
Local Abbreviation groups_ok := (groups_ok key).

Hypothesis key_eqb_spec : forall a b, key_eqb a b = true <-> a = b.

Lemma key_eqb_refl : forall k, key_eqb k k = true.
Proof. intro k. apply key_eqb_spec. reflexivity. Qed.

Lemma key_eqb_false : forall a b, key_eqb a b = false <-> a <> b.
Proof.
  intros a b. split.
  - intros Hf Heq. apply key_eqb_spec in Heq. congruence.
  - intro Hne. destruct (key_eqb a b) eqn:Hk; [|reflexivity].
    apply key_eqb_spec in Hk. contradiction.
Qed.

Lemma insert_group_keys :
  forall x gs k,
    In k (map gkey (insert_group x gs)) <-> k = key x \/ In k (map gkey gs).
Proof.
  intros x gs k. induction gs as [|g gs IH]; simpl.
  - intuition.
  - destruct (key_eqb (gkey g) (key x)) eqn:Hk; simpl.
    + apply key_eqb_spec in Hk. rewrite Hk. intuition.
    + rewrite IH. intuition.
Qed.

Lemma insert_group_ok :
  forall x gs, groups_ok gs -> groups_ok (insert_group x gs).
Proof.
  intros x gs. induction gs as [|g gs IH]; intros [Hnd Hmem]; simpl.
  - split.
    + simpl. constructor; [intros []|constructor].
    + intros g [<-|[]] y [<-|[]]. reflexivity.
  - destruct (key_eqb (gkey g) (key x)) eqn:Hk.
    + apply key_eqb_spec in Hk. split; [exact Hnd|].
      intros g' [<-|Hin] y Hy.
      * unfold members in Hy. simpl in Hy.
        destruct Hy as [<-|Hy]; [apply (Hmem g); simpl; auto|].
        apply in_app_or in Hy. destruct Hy as [Hy|[<-|[]]]; [|symmetry; exact Hk].
        apply (Hmem g); simpl; auto.
      * apply (Hmem g'); simpl; auto.
    + apply key_eqb_false in Hk.
      simpl in Hnd. inversion Hnd as [|? ? Hnotin Hnd']; subst.
      destruct IH as [IHnd IHmem].
      { split; [exact Hnd'|]. intros g' Hg'. apply Hmem. simpl; auto. }
      split.
      * simpl. constructor; [|exact IHnd].
        rewrite insert_group_keys. intros [Heq|Hin]; auto.
      * intros g' [<-|Hin]; [apply Hmem; simpl; auto|apply IHmem; exact Hin].
Qed.

Lemma insert_group_members :
  forall x gs y,
    (exists g, In g (insert_group x gs) /\ In y (members g)) <->
    y = x \/ exists g, In g gs /\ In y (members g).
Proof.
  intros x gs y. induction gs as [|g gs IH]; simpl.
  - split.
    + intros (g & [<-|[]] & [<-|[]]). auto.
    + intros [->|(g & [] & _)]. eexists. split; [left; reflexivity|simpl; auto].
  - destruct (key_eqb (gkey g) (key x)) eqn:Hk.
    + split.
      * intros (g' & [<-|Hin] & Hy).
        -- unfold members in Hy. simpl in Hy.
           destruct Hy as [<-|Hy]; [right; exists g; simpl; auto|].
           apply in_app_or in Hy. destruct Hy as [Hy|[<-|[]]]; auto.
           right. exists g. simpl. auto.
        -- right. exists g'. simpl. auto.
      * intros [->|(g' & [<-|Hin] & Hy)].
        -- eexists. split; [left; reflexivity|].
           unfold members. simpl. right. apply in_or_app. simpl. auto.
        -- eexists. split; [left; reflexivity|].
           unfold members in *. simpl in *.
           destruct Hy as [Hy|Hy]; auto. right. apply in_or_app. auto.
        -- exists g'. simpl. auto.
    + split.
      * intros (g' & [<-|Hin] & Hy).
        -- right. exists g. simpl. auto.
        -- assert (Hx : exists g0, In g0 (insert_group x gs) /\ In y (members g0))
             by (exists g'; auto).
           apply IH in Hx. destruct Hx as [Hx|(g0 & Hg0 & Hy0)]; auto.
           right. exists g0. simpl. auto.
      * intros [->|(g' & [<-|Hin] & Hy)].
        -- destruct IH as [_ IH]. destruct (IH (or_introl eq_refl)) as (g0 & Hg0 & Hy0).
           exists g0. simpl. auto.
        -- exists g. simpl. auto.
        -- destruct IH as [_ IH].
           destruct (IH (or_intror (ex_intro _ g' (conj Hin Hy)))) as (g0 & Hg0 & Hy0).
           exists g0. simpl. auto.
Qed.

Lemma fold_insert_ok :
  forall l gs,
    groups_ok gs ->
    groups_ok (fold_left (fun gs x => insert_group x gs) l gs).
Proof.
  induction l as [|x l IH]; intros gs Hok; simpl; [exact Hok|].
  apply IH. apply insert_group_ok. exact Hok.
Qed.

Lemma fold_insert_members :
  forall l gs y,
    (exists g, In g (fold_left (fun gs x => insert_group x gs) l gs) /\ In y (members g)) <->
    In y l \/ exists g, In g gs /\ In y (members g).
Proof.
  induction l as [|x l IH]; intros gs y; simpl.
  - intuition.
  - specialize (IH (insert_group x gs) y).
    pose proof (insert_group_members x gs y) as Hins.
    intuition.
Qed.

Lemma groupBy_ok : forall l, groups_ok (groupBy l).
Proof.
  intro l. apply fold_insert_ok. split; [constructor|intros g []].
Qed.

Lemma groupBy_members :
  forall l y, (exists g, In g (groupBy l) /\ In y (members g)) <-> In y l.
Proof.
  intros l y. unfold groupBy. rewrite fold_insert_members. split; auto.
  intros [H|(g & [] & _)]. exact H.
Qed.

Lemma first_member :
  forall tie (g : group A K), In (first tie g) (members g).
Proof.
  intros tie g. unfold first.
  destruct (Nat.lt_ge_cases (tie (length (members g))) (length (members g))) as [Hlt|Hge].
  - apply nth_In. exact Hlt.
  - rewrite nth_overflow by exact Hge. simpl. auto.
Qed.

Lemma first_key :
  forall tie (gs : list (group A K)) g,
    groups_ok gs -> In g gs -> key (first tie g) = gkey g.
Proof.
  intros tie gs g [_ Hmem] Hin. apply (Hmem g Hin). apply first_member.
Qed.

Lemma dropDuplicates_keys :
  forall tie l, map key (dropDuplicates tie l) = map gkey (groupBy l).
Proof.
  intros tie l. unfold dropDuplicates. rewrite map_map.
  apply map_ext_in. intros g Hg. apply (first_key tie _ g (groupBy_ok l) Hg).
Qed.

(** No two surviving rows share a key. *)
Lemma dropDuplicates_NoDup :
  forall tie l, NoDup (map key (dropDuplicates tie l)).
Proof.
  intros tie l. rewrite dropDuplicates_keys. apply (groupBy_ok l).
Qed.

(** Every surviving row is a row of the input. *)
Lemma dropDuplicates_incl :
  forall tie l r, In r (dropDuplicates tie l) -> In r l.
Proof.
  intros tie l r Hin. unfold dropDuplicates in Hin.
  apply in_map_iff in Hin. destruct Hin as (g & <- & Hg).
  apply groupBy_members. exists g. split; [exact Hg|apply first_member].
Qed.

(** Every key of the input survives. *)
Lemma dropDuplicates_complete :
  forall tie l x, In x l -> In (key x) (map key (dropDuplicates tie l)).
Proof.
  intros tie l x Hin. rewrite dropDuplicates_keys.
  apply groupBy_members in Hin. destruct Hin as (g & Hg & Hx).
  destruct (groupBy_ok l) as [_ Hmem]. rewrite (Hmem g Hg x Hx).
  apply in_map. exact Hg.
Qed.

Lemma count_key_absent :
  forall k l, ~ In k (map key l) -> count_key k l = 0%nat.
Proof.
  intros k l. unfold count_key. induction l as [|r l IH]; intro Hn; simpl; [reflexivity|].
  destruct (key_eqb (key r) k) eqn:Hk.
  - apply key_eqb_spec in Hk. exfalso. apply Hn. simpl. auto.
  - apply IH. intro Hin. apply Hn. simpl. auto.
Qed.

Lemma count_key_NoDup :
  forall k l, NoDup (map key l) -> In k (map key l) -> count_key k l = 1%nat.
Proof.
  intros k l. unfold count_key. induction l as [|r l IH]; intros Hnd Hin; simpl in *.
  - contradiction.
  - inversion Hnd as [|? ? Hnotin Hnd']; subst.
    destruct (key_eqb (key r) k) eqn:Hk.
    + apply key_eqb_spec in Hk. subst k. simpl.
      f_equal. apply (count_key_absent (key r) l Hnotin).
    + apply key_eqb_false in Hk. destruct Hin as [Heq|Hin]; [contradiction|].
      apply IH; assumption.
Qed.

(** Exactly one surviving row for each key of the input. *)
Lemma dropDuplicates_one_per_key :
  forall tie l x, In x l -> count_key (key x) (dropDuplicates tie l) = 1%nat.
Proof.
  intros tie l x Hin. apply count_key_NoDup.
  - apply dropDuplicates_NoDup.
  - apply dropDuplicates_complete. exact Hin.
Qed.

End DropDuplicatesFacts.

(** ** Key equalities decide equality *)

Lemma null_safe_eq_spec :
  forall (A : Type) (eqb : A -> A -> bool),
    (forall a b, eqb a b = true <-> a = b) ->
    forall x y, null_safe_eq eqb x y = true <-> x = y.
Proof.
  intros A eqb Heqb [a|] [b|]; simpl; split; intro H;
    try discriminate; try reflexivity.
  - f_equal. apply Heqb. exact H.
  - apply Heqb. congruence.
Qed.

Lemma string_key_eqb_spec : forall x y, string_key_eqb x y = true <-> x = y.
Proof. apply null_safe_eq_spec. apply String.eqb_eq. Qed.

Lemma long_key_eqb_spec : forall x y, long_key_eqb x y = true <-> x = y.
Proof. apply null_safe_eq_spec. apply Z.eqb_eq. Qed.

Lemma pair_key_eqb_spec : forall a b, pair_key_eqb a b = true <-> a = b.
Proof.
  intros [a1 a2] [b1 b2]. unfold pair_key_eqb. simpl.
  rewrite andb_true_iff, !string_key_eqb_spec. split.
  - intros [-> ->]. reflexivity.
  - intro H. inversion H. auto.
Qed.

Lemma sql_eq_string_true :
  forall x y, sql_eq String.eqb x y = true <-> exists v, x = Some v /\ y = Some v.
Proof.
  intros [a|] [b|]; simpl; split; try discriminate.
  - intro H. apply String.eqb_eq in H. subst. eauto.
  - intros (v & Ha & Hb). inversion Ha. inversion Hb. subst. apply String.eqb_refl.
  - intros (v & Ha & Hb). discriminate.
  - intros (v & Ha & Hb). discriminate.
  - intros (v & Ha & Hb). discriminate.
Qed.

Lemma sql_eq_long_true :
  forall x y, sql_eq Z.eqb x y = true <-> exists v, x = Some v /\ y = Some v.
Proof.
  intros [a|] [b|]; simpl; split; try discriminate.
  - intro H. apply Z.eqb_eq in H. subst. eauto.
  - intros (v & Ha & Hb). inversion Ha. inversion Hb. subst. apply Z.eqb_refl.
  - intros (v & Ha & Hb). discriminate.
  - intros (v & Ha & Hb). discriminate.
  - intros (v & Ha & Hb). discriminate.
Qed.

Lemma where_NextSong_In :
  forall log e,
    In e (where_NextSong log) <-> In e log /\ Log.page e = Some "NextSong".
Proof.
  intros log e. unfold where_NextSong. rewrite filter_In, sql_eq_string_true.
  split; intros [Hin H]; split; auto.
  - destruct H as (v & Hp & Hv). congruence.
  - eauto.
Qed.

(** ** What a run leaves in the store *)

Lemma process_song_data_run :
  forall E df s,
    process_song_data E df s =
    (Ok tt,
     {| songs_parquet := Some (songs_table E df);
        artists_parquet := Some (artists_table E df);
        users_parquet := users_parquet s;
        time_parquet := time_parquet s;
        songplays_parquet := songplays_parquet s |}).
Proof. reflexivity. Qed.

Lemma main_run :
  forall E inp s,
    main E inp s =
    let df := where_NextSong (log_data inp) in
    let songs := songs_table E (song_data inp) in
    match time_table E df with
    | Ok time_df =>
        match songs with
        | _ :: _ =>
            (Ok tt,
             {| songs_parquet := Some songs;
                artists_parquet := Some (artists_table E (song_data inp));
                users_parquet := Some (users_table E df);
                time_parquet := Some time_df;
                songplays_parquet :=
                  Some (songplays_table (songplays E df songs) time_df) |})
        | [] =>
            (Err (AnalysisException "songs.parquet"),
             {| songs_parquet := Some songs;
                artists_parquet := Some (artists_table E (song_data inp));
                users_parquet := Some (users_table E df);
                time_parquet := Some time_df;
                songplays_parquet := songplays_parquet s |})
        end
    | Err e =>
        (Err e,
         {| songs_parquet := Some songs;
            artists_parquet := Some (artists_table E (song_data inp));
            users_parquet := Some (users_table E df);
            time_parquet := None;
            songplays_parquet := songplays_parquet s |})
    end.
Proof.
  intros E inp s. unfold main, process_log_data, bind, lift, write_time, read_songs.
  simpl.
  destruct (time_table E (where_NextSong (log_data inp))); [|reflexivity].
  simpl. destruct (songs_table E (song_data inp)); reflexivity.
Qed.

(** Whatever becomes of the run, the songs, artists and users tables are
    overwritten. *)
Lemma main_writes_dimensions :
  forall E inp s,
    songs_parquet (snd (main E inp s)) = Some (songs_table E (song_data inp)) /\
    artists_parquet (snd (main E inp s)) = Some (artists_table E (song_data inp)) /\
    users_parquet (snd (main E inp s)) =
    Some (users_table E (where_NextSong (log_data inp))).
Proof.
  intros E inp s. rewrite main_run. cbv zeta.
  destruct (time_table E (where_NextSong (log_data inp)));
    [destruct (songs_table E (song_data inp))|]; repeat split; reflexivity.
Qed.

Lemma main_completed :
  forall E inp s s',
    main E inp s = (Ok tt, s') ->
    exists time_df,
      time_table E (where_NextSong (log_data inp)) = Ok time_df /\
      s' =
      {| songs_parquet := Some (songs_table E (song_data inp));
         artists_parquet := Some (artists_table E (song_data inp));
         users_parquet := Some (users_table E (where_NextSong (log_data inp)));
         time_parquet := Some time_df;
         songplays_parquet :=
           Some (songplays_table
                   (songplays E (where_NextSong (log_data inp))
                      (songs_table E (song_data inp))) time_df) |}.
Proof.
  intros E inp s s' Hrun. rewrite main_run in Hrun. cbv zeta in Hrun.
  destruct (time_table E (where_NextSong (log_data inp))) as [time_df|e];
    [|discriminate].
  destruct (songs_table E (song_data inp)) as [|r t]; [discriminate|].
  exists time_df. split; [reflexivity|]. inversion Hrun. reflexivity.
Qed.

(** ** Songs table *)

(** C6. Whatever row the engine keeps among duplicates, the songs table
    that [main] writes has no two rows with the same
    [(song_id, artist_id)] pair, each of its rows is the projection of a
    catalog record, and every pair of the catalog is present. *)
Theorem songs_table_unique_song_artist :
  forall E inp s,
    exists t,
      songs_parquet (snd (main E inp s)) = Some t /\
      NoDup (map songs_key t) /\
      (forall r, In r t -> exists c, In c (song_data inp) /\ r = select_songs c) /\
      (forall c, In c (song_data inp) ->
                 count_key songs_key pair_key_eqb (Song.song_id c, Song.artist_id c) t = 1%nat).
Proof.
  intros E inp s. exists (songs_table E (song_data inp)). split; [|split; [|split]].
  - apply main_writes_dimensions.
  - apply dropDuplicates_NoDup. exact pair_key_eqb_spec.
  - intros r Hr. unfold songs_table in Hr.
    apply dropDuplicates_incl in Hr.
    apply in_map_iff in Hr. destruct Hr as (c & Hc & Hin). eauto.
  - intros c Hc. unfold songs_table.
    change (Song.song_id c, Song.artist_id c) with (songs_key (select_songs c)).
    apply dropDuplicates_one_per_key; [exact pair_key_eqb_spec|].
    apply in_map. exact Hc.
Qed.

(** Which of two catalog records with the same pair is kept depends on
    the engine; the pair is kept once either way. *)
Example retained_song_depends_on_engine :
  let df := [catalog_record "S1" "A1" "Song A" 2000 (200 # 1);
             catalog_record "S1" "A1" "Song B" 2001 (180 # 1)] in
  map SongsTable.title (songs_table utc_engine df) = [Some "Song A"] /\
  map SongsTable.title (songs_table other_engine df) = [Some "Song B"].
Proof. split; reflexivity. Qed.

(** ** Users table *)

(** C7. The users table that [main] writes has no two rows with the same
    [userId]; its rows are projections of "NextSong" events only, so a
    record of another page contributes nothing; and each [userId] seen on a
    "NextSong" event has exactly one row, whichever the engine keeps. *)
Theorem users_table_one_row_per_userId :
  forall E inp s,
    exists t,
      users_parquet (snd (main E inp s)) = Some t /\
      NoDup (map UsersTable.userId t) /\
      (forall r, In r t ->
         exists e, In e (log_data inp) /\ Log.page e = Some "NextSong" /\
                   r = select_users e) /\
      (forall e, In e (log_data inp) -> Log.page e = Some "NextSong" ->
                 count_key UsersTable.userId long_key_eqb (Log.userId e) t = 1%nat).
Proof.
  intros E inp s. exists (users_table E (where_NextSong (log_data inp))).
  split; [|split; [|split]].
  - apply main_writes_dimensions.
  - apply dropDuplicates_NoDup. exact long_key_eqb_spec.
  - intros r Hr. unfold users_table in Hr.
    apply dropDuplicates_incl in Hr.
    apply in_map_iff in Hr. destruct Hr as (e & He & Hin).
    apply where_NextSong_In in Hin. destruct Hin as [Hin Hp]. eauto.
  - intros e He Hp. unfold users_table.
    change (Log.userId e) with (UsersTable.userId (select_users e)).
    apply dropDuplicates_one_per_key; [exact long_key_eqb_spec|].
    apply in_map. apply where_NextSong_In. auto.
Qed.

(** ** Time table *)

Lemma traverse_Forall2 :
  forall (A B : Type) (f : A -> outcome B) l l',
    traverse f l = Ok l' -> Forall2 (fun x y => f x = Ok y) l l'.
Proof.
  intros A B f. induction l as [|x l IH]; intros l' H; simpl in H.
  - inversion H. constructor.
  - destruct (f x) as [y|e] eqn:Hx; [|discriminate].
    destruct (traverse f l) as [ys|e] eqn:Hl; [|discriminate].
    inversion H. subst. constructor; auto.
Qed.

Lemma traverse_total :
  forall (A B : Type) (f : A -> outcome B) l,
    (forall x, In x l -> exists y, f x = Ok y) -> exists l', traverse f l = Ok l'.
Proof.
  intros A B f. induction l as [|x l IH]; intro H; simpl.
  - eauto.
  - destruct (H x (or_introl eq_refl)) as (y & ->).
    destruct IH as (ys & ->); [intros z Hz; apply H; simpl; auto|]. eauto.
Qed.

Lemma time_row_inv :
  forall E x r,
    time_row E x = Ok r ->
    exists ms,
      x = Some ms /\ get_timestamp E x = Ok ms /\
      r = {| TimeTable.ts := Some ms;
             TimeTable.datetime := ms;
             TimeTable.hour := hour E ms;
             TimeTable.year := date_format E ms "y";
             TimeTable.month := date_format E ms "M";
             TimeTable.week := date_format E ms "w";
             TimeTable.day := date_format E ms "d";
             TimeTable.weekday := date_format E ms "F" |}.
Proof.
  intros E x r H. unfold time_row in H.
  destruct (get_timestamp E x) as [dt|e] eqn:Hg; [|discriminate].
  destruct x as [ms|]; [|discriminate].
  assert (dt = ms).
  { unfold get_timestamp in Hg. destruct (local_date E ms) as [[y m] d].
    destruct ((1 <=? y) && (y <=? 9999)); [inversion Hg; reflexivity|discriminate]. }
  subst dt. exists ms. inversion H. auto.
Qed.

Lemma time_table_ts :
  forall E df time_df,
    time_table E df = Ok time_df -> map TimeTable.ts time_df = distinct_ts E df.
Proof.
  intros E df time_df H. unfold time_table in H.
  apply traverse_Forall2 in H. induction H as [|x r l l' Hx _ IH]; simpl.
  - reflexivity.
  - apply time_row_inv in Hx. destruct Hx as (ms & -> & _ & ->). simpl. f_equal. exact IH.
Qed.

Lemma distinct_ts_NoDup : forall E df, NoDup (distinct_ts E df).
Proof.
  intros E df. unfold distinct_ts.
  rewrite <- (map_id (dropDuplicates _ _ _ _)).
  apply (dropDuplicates_NoDup (fun x : option Z => x) long_key_eqb long_key_eqb_spec).
Qed.

Lemma distinct_ts_In :
  forall E df x, In x (distinct_ts E df) <-> exists e, In e df /\ Log.ts e = x.
Proof.
  intros E df x. unfold distinct_ts. split.
  - intro H. apply dropDuplicates_incl in H. apply in_map_iff in H.
    destruct H as (e & He & Hin). eauto.
  - intros (e & Hin & <-).
    pose proof (dropDuplicates_complete (fun x : option Z => x) long_key_eqb
                  long_key_eqb_spec (tie_break E "time") (map Log.ts df) (Log.ts e)
                  (in_map Log.ts df e Hin)) as H.
    rewrite map_id in H. exact H.
Qed.

(** In a time table that was built, the [ts] column has no null and no
    repeated value, and holds exactly the [ts] values of the events. *)
Lemma time_table_keys :
  forall E df time_df,
    time_table E df = Ok time_df ->
    NoDup (map TimeTable.ts time_df) /\
    (forall x, In x (map TimeTable.ts time_df) <-> exists e, In e df /\ Log.ts e = x) /\
    (forall x, In x (map TimeTable.ts time_df) -> exists ms, x = Some ms).
Proof.
  intros E df time_df H. pose proof (time_table_ts E df time_df H) as Hts.
  split; [|split].
  - rewrite Hts. apply distinct_ts_NoDup.
  - intro x. rewrite Hts. apply distinct_ts_In.
  - intros x Hx. apply in_map_iff in Hx. destruct Hx as (r & <- & Hr).
    unfold time_table in H. apply traverse_Forall2 in H.
    clear Hts. induction H as [|x0 r0 l l' Hx0 _ IH]; [contradiction|].
    destruct Hr as [->|Hr]; [|auto].
    apply time_row_inv in Hx0. destruct Hx0 as (ms & _ & _ & ->). simpl. eauto.
Qed.

(** Each row of a time table that was built is derived from its own
    [ts]. *)
Lemma time_table_rows :
  forall E df time_df r,
    time_table E df = Ok time_df -> In r time_df ->
    exists ms, In (Some ms) (distinct_ts E df) /\ time_row E (Some ms) = Ok r.
Proof.
  intros E df time_df r H Hr. unfold time_table in H.
  apply traverse_Forall2 in H.
  induction H as [|x0 r0 l l' Hx0 _ IH]; [contradiction|].
  destruct Hr as [->|Hr].
  - destruct (time_row_inv E x0 r Hx0) as (ms & -> & _ & _).
    exists ms. simpl. auto.
  - destruct (IH Hr) as (ms & Hin & Hrow). exists ms. simpl. auto.
Qed.

(** In a run that completes, the timestamp callback has accepted the
    [ts] of every "NextSong" event. *)
Lemma main_completed_timestamps :
  forall E inp s s',
    main E inp s = (Ok tt, s') ->
    forall e, In e (log_data inp) -> Log.page e = Some "NextSong" ->
              exists ms, Log.ts e = Some ms /\ get_timestamp E (Some ms) = Ok ms.
Proof.
  intros E inp s s' Hrun e He Hpage.
  destruct (main_completed E inp s s' Hrun) as (time_df & Htime & _).
  destruct (time_table_keys E _ time_df Htime) as (_ & Hkeys & _).
  assert (Hin : In (Log.ts e) (map TimeTable.ts time_df)).
  { apply Hkeys. exists e. split; [apply where_NextSong_In; auto|reflexivity]. }
  apply in_map_iff in Hin. destruct Hin as (r & Hts & Hr).
  destruct (time_table_rows E _ time_df r Htime Hr) as (ms & _ & Hrow).
  destruct (time_row_inv E _ r Hrow) as (ms' & Heq & Hg & ->).
  inversion Heq; subst ms'. simpl in Hts. exists ms. auto.
Qed.

(** A "NextSong" event without [ts] stops the run in the timestamp
    callback, after the users table and before the time table. *)
Example null_ts_stops_the_run :
  main utc_engine
    {| song_data := [];
       log_data :=
         [{| Log.artist := None; Log.auth := None; Log.firstName := None;
             Log.gender := None; Log.itemInSession := None; Log.lastName := None;
             Log.level := None; Log.location := None; Log.method := None;
             Log.page := Some "NextSong"; Log.registration := None;
             Log.sessionId := None; Log.song := None; Log.status := None;
             Log.ts := None; Log.userAgent := None; Log.userId := None |}] |}
    empty_store =
  (Err TypeError,
   {| songs_parquet := Some [];
      artists_parquet := Some [];
      users_parquet :=
        Some [{| UsersTable.userId := None; UsersTable.firstName := None;
                 UsersTable.lastName := None; UsersTable.gender := None;
                 UsersTable.level := None |}];
      time_parquet := None;
      songplays_parquet := None |}).
Proof. reflexivity. Qed.

(** An event of another page is filtered out before the callback sees
    it. *)
Example null_event_is_filtered :
  fst (main utc_engine
         {| song_data := song_data scenario; log_data := [null_event] |}
         empty_store) = Ok tt.
Proof. reflexivity. Qed.

(** With no catalog record the songs table is written without a row,
    and reading it back stops the run before the songplays table. *)
Example empty_catalog_stops_the_run :
  main utc_engine {| song_data := []; log_data := log_data scenario |} empty_store =
  (Err (AnalysisException "songs.parquet"),
   {| songs_parquet := Some [];
      artists_parquet := Some [];
      users_parquet := users_parquet scenario_store;
      time_parquet := time_parquet scenario_store;
      songplays_parquet := None |}).
Proof. vm_compute. reflexivity. Qed.

(** ** Calendar checks *)

Lemma civil_round_trip_sound :
  forall count n k,
    civil_round_trip count n = true ->
    n <= k < n + Z.of_nat count ->
    let '(y, m, d) := civil_from_days k in days_from_civil y m d = k.
Proof.
  induction count as [|count IH]; intros n k Hall Hk; [lia|].
  cbn [civil_round_trip] in Hall. apply andb_true_iff in Hall. destruct Hall as [Hn Hrest].
  destruct (Z.eq_dec k n) as [->|Hne].
  - destruct (civil_from_days n) as [[y m] d]. apply Z.eqb_eq. exact Hn.
  - apply (IH (n + 1)); [exact Hrest|lia].
Qed.

(** The two calendar conversions agree from the epoch to the end of
    2100. *)
Lemma days_from_civil_of_civil_from_days :
  forall n,
    0 <= n < 47847 ->
    let '(y, m, d) := civil_from_days n in days_from_civil y m d = n.
Proof.
  intros n Hn. apply (civil_round_trip_sound (Z.to_nat 47847) 0).
  - vm_compute. reflexivity.
  - lia.
Qed.

Example epoch_day_of_scenario :
  civil_from_days (epoch_second 1541121934796 / 86400) = (2018, 11, 2) /\
  day_of_week (epoch_second 1541121934796 / 86400) = 5 /\
  civil_from_days 0 = (1970, 1, 1) /\ day_of_week 0 = 4 /\
  civil_from_days (-1) = (1969, 12, 31) /\
  civil_from_days 11016 = (2000, 2, 29).
Proof. repeat split; reflexivity. Qed.

Example calendar_range_ends :
  civil_from_days 0 = (1970, 1, 1) /\ civil_from_days 47846 = (2100, 12, 31).
Proof. split; reflexivity. Qed.

(** In the US locale the last days of December 2018 already belong to
    week 1, and 29 December is still in week 52. *)
Example us_weeks_around_new_year :
  us_week_of_year (days_from_civil 2018 12 29) = 52 /\
  us_week_of_year (days_from_civil 2018 12 30) = 1 /\
  us_week_of_year (days_from_civil 2019 1 5) = 1 /\
  us_week_of_year (days_from_civil 2019 1 6) = 2.
Proof. repeat split; reflexivity. Qed.

(** ** Joins *)

Lemma with_ids_rows :
  forall (A : Type) gap (rows : list A) k next,
    map snd (with_ids gap k next rows) = rows.
Proof.
  intros A gap. induction rows as [|r rows IH]; intros k next; simpl.
  - reflexivity.
  - f_equal. apply IH.
Qed.

Lemma left_join_In :
  forall df song_df e o,
    In (e, o) (left_join df song_df) <->
    In e df /\
    match o with
    | Some s => In s song_df /\ sql_eq String.eqb (Log.song e) (SongsTable.song_id s) = true
    | None => song_matches song_df e = []
    end.
Proof.
  intros df song_df e o. unfold left_join. rewrite in_flat_map. split.
  - intros (e' & He' & Hin).
    destruct (song_matches song_df e') as [|s0 ms] eqn:Hm.
    + destruct Hin as [Heq|[]]. inversion Heq. subst. auto.
    + apply in_map_iff in Hin. destruct Hin as (s & Heq & Hs). inversion Heq. subst.
      split; [exact He'|]. rewrite <- Hm in Hs. unfold song_matches in Hs.
      apply filter_In in Hs. exact Hs.
  - intros [He Ho]. exists e. split; [exact He|].
    destruct o as [s|].
    + assert (Hs : In s (song_matches song_df e)) by (apply filter_In; exact Ho).
      destruct (song_matches song_df e) as [|s0 ms]; [contradiction|].
      apply in_map_iff. eauto.
    + rewrite Ho. simpl. auto.
Qed.

Lemma left_join_length :
  forall df song_df,
    length (left_join df song_df) = list_sum (map (rows_of_event song_df) df).
Proof.
  intros df song_df. unfold left_join. rewrite length_flat_map.
  f_equal. apply map_ext. intro e. unfold rows_of_event.
  destruct (song_matches song_df e) as [|s ms]; [reflexivity|].
  rewrite length_map. simpl. lia.
Qed.

Lemma songplays_length :
  forall E df song_df,
    length (songplays E df song_df) = list_sum (map (rows_of_event song_df) df).
Proof.
  intros E df song_df. unfold songplays, songplays_all_columns, monotonically_increasing_id.
  rewrite length_map, <- left_join_length.
  rewrite <- (with_ids_rows _ (id_gap E) (left_join df song_df) 0%nat 0) at 2.
  rewrite length_map. reflexivity.
Qed.

Lemma songplays_In :
  forall E df song_df p,
    In p (songplays E df song_df) ->
    exists idx e o,
      In (e, o) (left_join df song_df) /\ p = select_songplays (idx, (e, o)).
Proof.
  intros E df song_df p Hp. unfold songplays in Hp. apply in_map_iff in Hp.
  destruct Hp as ([idx [e o]] & <- & Hin). exists idx, e, o. split; [|reflexivity].
  unfold songplays_all_columns, monotonically_increasing_id in Hin.
  rewrite <- (with_ids_rows _ (id_gap E) (left_join df song_df) 0%nat 0).
  apply in_map_iff. exists (idx, (e, o)). auto.
Qed.

Lemma projected_columns_select :
  forall p t, projected_columns (select_songplays_table p t) = p.
Proof. intros [] t. reflexivity. Qed.

Lemma songplays_table_In :
  forall sp time_df r,
    In r (songplays_table sp time_df) <->
    exists p t,
      In p sp /\ In t time_df /\
      sql_eq Z.eqb (Songplays.start_time p) (TimeTable.ts t) = true /\
      r = select_songplays_table p t.
Proof.
  intros sp time_df r. unfold songplays_table. rewrite in_flat_map. split.
  - intros (p & Hp & Hr). apply in_map_iff in Hr. destruct Hr as (t & <- & Ht).
    unfold time_matches in Ht. apply filter_In in Ht. destruct Ht as [Ht Heq].
    exists p, t. auto.
  - intros (p & t & Hp & Ht & Heq & ->). exists p. split; [exact Hp|].
    apply in_map. unfold time_matches. apply filter_In. auto.
Qed.

Lemma no_match :
  forall (time_df : list TimeTable.row) ms,
    ~ In (Some ms) (map TimeTable.ts time_df) ->
    filter (fun t => sql_eq Z.eqb (Some ms) (TimeTable.ts t)) time_df = [].
Proof.
  induction time_df as [|t0 l IH]; intros ms Hn; cbn [filter]; [reflexivity|].
  destruct (sql_eq Z.eqb (Some ms) (TimeTable.ts t0)) eqn:Heq.
  - apply sql_eq_long_true in Heq. destruct Heq as (v & Hv & Ht0).
    exfalso. apply Hn. cbn [map In]. left. congruence.
  - apply IH. intro H. apply Hn. cbn [map In]. auto.
Qed.

Lemma unique_match :
  forall (time_df : list TimeTable.row) ms,
    NoDup (map TimeTable.ts time_df) ->
    In (Some ms) (map TimeTable.ts time_df) ->
    exists t,
      filter (fun t => sql_eq Z.eqb (Some ms) (TimeTable.ts t)) time_df = [t].
Proof.
  induction time_df as [|t0 l IH]; intros ms Hnd Hin; cbn [filter map In] in *;
    [contradiction|].
  inversion Hnd as [|? ? Hnotin Hnd']; subst.
  destruct (sql_eq Z.eqb (Some ms) (TimeTable.ts t0)) eqn:Heq.
  - exists t0. f_equal. apply no_match.
    apply sql_eq_long_true in Heq. destruct Heq as (v & Hv & Ht0).
    inversion Hv; subst v. rewrite <- Ht0. exact Hnotin.
  - destruct Hin as [Hin|Hin].
    + rewrite Hin in Heq. simpl in Heq. rewrite Z.eqb_refl in Heq. discriminate.
    + apply IH; assumption.
Qed.

Lemma with_ids_In :
  forall (A : Type) gap (rows : list A) k next r,
    In r rows -> exists idx, In (idx, r) (with_ids gap k next rows).
Proof.
  intros A gap rows k next r Hr.
  rewrite <- (with_ids_rows A gap rows k next) in Hr.
  apply in_map_iff in Hr. destruct Hr as ([idx r'] & Heq & Hin).
  simpl in Heq. subst r'. eauto.
Qed.

Lemma candidate_has_one_match :
  forall E df song_df time_df p,
    time_table E df = Ok time_df ->
    In p (songplays E df song_df) ->
    exists t, time_matches time_df p = [t].
Proof.
  intros E df song_df time_df p Htime Hp.
  destruct (songplays_In E df song_df p Hp) as (idx & e & o & Hjoin & ->).
  apply left_join_In in Hjoin. destruct Hjoin as [He _].
  destruct (time_table_keys E df time_df Htime) as (Hnd & Hkeys & Hsome).
  assert (Hin : In (Log.ts e) (map TimeTable.ts time_df)) by (apply Hkeys; eauto).
  destruct (Hsome _ Hin) as (ms & Hms).
  unfold time_matches. simpl. rewrite Hms in *.
  apply unique_match; assumption.
Qed.

Lemma join_keeps_all :
  forall sp time_df,
    (forall p, In p sp -> exists t, time_matches time_df p = [t]) ->
    map projected_columns (songplays_table sp time_df) = sp.
Proof.
  intros sp time_df. unfold songplays_table.
  induction sp as [|p sp IH]; intro H; [reflexivity|].
  cbn [flat_map]. rewrite map_app, IH by (intros q Hq; apply H; simpl; auto).
  destruct (H p (or_introl eq_refl)) as (t & ->). simpl.
  rewrite projected_columns_select. reflexivity.
Qed.

Lemma join_drops_unmatched :
  forall before p after time_df,
    time_matches time_df p = [] ->
    songplays_table (before ++ p :: after) time_df =
    songplays_table (before ++ after) time_df.
Proof.
  intros before p after time_df Hp. unfold songplays_table.
  rewrite !flat_map_app. cbn [flat_map]. rewrite Hp. reflexivity.
Qed.

Lemma list_sum_at_least :
  forall (A : Type) (f : A -> nat) l,
    (forall x, In x l -> (1 <= f x)%nat) -> (length l <= list_sum (map f l))%nat.
Proof.
  intros A f. induction l as [|x l IH]; intro H; simpl; [lia|].
  specialize (H x (or_introl eq_refl)) as Hx.
  assert (length l <= list_sum (map f l))%nat
    by (apply IH; intros y Hy; apply H; simpl; auto).
  lia.
Qed.

Lemma list_sum_all_one :
  forall (A : Type) (f : A -> nat) l,
    (forall x, In x l -> f x = 1%nat) -> list_sum (map f l) = length l.
Proof.
  intros A f. induction l as [|x l IH]; intro H; simpl; [reflexivity|].
  rewrite (H x (or_introl eq_refl)), IH by (intros y Hy; apply H; simpl; auto).
  reflexivity.
Qed.

(** ** Songplays assembly *)

(** C5. After a completed run every songplays row carries the [ts] of a
    "NextSong" event and that [ts] is the key of a row of the time table
    written by the same run, from which the row takes its year and month;
    and the inner join leaves nothing of a candidate row that has no match
    in the time table. *)
Theorem songplays_start_time_in_time_table :
  forall E inp s s',
    main E inp s = (Ok tt, s') ->
    exists time_df sp,
      time_parquet s' = Some time_df /\
      songplays_parquet s' = Some sp /\
      (forall r, In r sp ->
         (exists e, In e (log_data inp) /\ Log.page e = Some "NextSong" /\
                    SongplaysTable.start_time r = Log.ts e) /\
         (exists t ms, In t time_df /\
                       TimeTable.ts t = Some ms /\
                       SongplaysTable.start_time r = Some ms /\
                       SongplaysTable.year r = TimeTable.year t /\
                       SongplaysTable.month r = TimeTable.month t)) /\
      (forall before p after,
         time_matches time_df p = [] ->
         songplays_table (before ++ p :: after) time_df =
         songplays_table (before ++ after) time_df).
Proof.
  intros E inp s s' Hrun.
  destruct (main_completed E inp s s' Hrun) as (time_df & Htime & ->).
  eexists. eexists. split; [reflexivity|]. split; [reflexivity|]. split.
  - intros r Hr. apply songplays_table_In in Hr.
    destruct Hr as (p & t & Hp & Ht & Heq & ->).
    apply sql_eq_long_true in Heq. destruct Heq as (ms & Hstart & Hts).
    split.
    + destruct (songplays_In _ _ _ p Hp) as (idx & e & o & Hjoin & ->).
      apply left_join_In in Hjoin. destruct Hjoin as [He _].
      apply where_NextSong_In in He. destruct He as [He Hpage].
      exists e. simpl. auto.
    + exists t, ms. simpl. auto.
  - intros before p after. apply join_drops_unmatched.
Qed.

(** C9. On every input either the run stops before the songplays join
    (the time table could not be built, or the songs table could not be
    read back, and no songplays table is written) or it completes, and then the time table holds exactly the distinct
    [ts] of the "NextSong" events, each candidate row finds exactly one time
    row, and the written table is the candidate rows, all of them and in
    the same order, each extended with its year and month. *)
Theorem time_join_drops_nothing :
  forall E inp s,
    let df := where_NextSong (log_data inp) in
    let candidates := songplays E df (songs_table E (song_data inp)) in
    match main E inp s with
    | (Ok _, s') =>
        exists time_df sp,
          time_parquet s' = Some time_df /\
          songplays_parquet s' = Some sp /\
          map TimeTable.ts time_df = distinct_ts E df /\
          (forall p, In p candidates -> exists t, time_matches time_df p = [t]) /\
          map projected_columns sp = candidates
    | (Err _, s') => songplays_parquet s' = songplays_parquet s
    end.
Proof.
  intros E inp s df candidates.
  destruct (main E inp s) as [[[]|e] s'] eqn:Hrun.
  - destruct (main_completed E inp s s' Hrun) as (time_df & Htime & ->).
    fold df in Htime. fold df. fold candidates.
    assert (Hone : forall p, In p candidates -> exists t, time_matches time_df p = [t])
      by (intros p Hp; apply (candidate_has_one_match E df _ time_df p Htime Hp)).
    exists time_df, (songplays_table candidates time_df). simpl.
    repeat split; auto.
    + apply time_table_ts. exact Htime.
    + apply join_keeps_all. exact Hone.
  - rewrite main_run in Hrun. cbv zeta in Hrun.
    destruct (time_table E (where_NextSong (log_data inp)));
      [destruct (songs_table E (song_data inp))|]; inversion Hrun; reflexivity.
Qed.

(** The run of the scenario on UTC completes. *)
Lemma scenario_run : main utc_engine scenario empty_store = (Ok tt, scenario_store).
Proof. vm_compute. reflexivity. Qed.

Lemma songplays_start_time_in_time_table_witness :
  exists time_df sp,
    time_parquet scenario_store = Some time_df /\
    songplays_parquet scenario_store = Some sp /\
    (forall r, In r sp ->
       (exists e, In e (log_data scenario) /\ Log.page e = Some "NextSong" /\
                  SongplaysTable.start_time r = Log.ts e) /\
       (exists t ms, In t time_df /\
                     TimeTable.ts t = Some ms /\
                     SongplaysTable.start_time r = Some ms /\
                     SongplaysTable.year r = TimeTable.year t /\
                     SongplaysTable.month r = TimeTable.month t)) /\
    (forall before p after,
       time_matches time_df p = [] ->
       songplays_table (before ++ p :: after) time_df =
       songplays_table (before ++ after) time_df).
Proof.
  apply (songplays_start_time_in_time_table utc_engine scenario empty_store scenario_store).
  vm_compute. reflexivity.
Defined.

(** C3 (as stated) fails: two catalog records share the [song_id] "S1"
    under two artists, both survive the deduplication on
    [(song_id, artist_id)], and the single play event whose [song] text is
    "S1" gives two songplays rows. *)
Lemma shared_song_id_duplicates_event :
  length (where_NextSong (log_data shared_song_id)) = 1%nat /\
  option_map (@length SongplaysTable.row)
    (songplays_parquet (snd (main utc_engine shared_song_id empty_store))) = Some 2%nat /\
  ~ (forall E inp s sp,
       songplays_parquet (snd (main E inp s)) = Some sp ->
       fst (main E inp s) = Ok tt ->
       length sp = length (where_NextSong (log_data inp))).
Proof.
  split; [reflexivity|]. split; [vm_compute; reflexivity|].
  intro H.
  pose proof (H utc_engine shared_song_id empty_store) as Hrun.
  vm_compute in Hrun. specialize (Hrun _ eq_refl eq_refl). discriminate.
Qed.

(** ** The weekday column *)

(** C4 (the weekday column). Friday 2 and Friday 9 November 2018 get two
    time rows whose [weekday] columns are "1" and "2": the column holds
    the rank of the day among the same weekdays of its month, not the day
    of the week. *)
Theorem weekday_column_differs_on_two_fridays :
  exists r1 r2,
    time_table utc_engine (where_NextSong two_fridays) = Ok [r1; r2] /\
    local_date utc_engine (TimeTable.datetime r1) = (2018, 11, 2) /\
    local_date utc_engine (TimeTable.datetime r2) = (2018, 11, 9) /\
    day_of_week (local_day utc_engine (TimeTable.datetime r1)) = 5 /\
    day_of_week (local_day utc_engine (TimeTable.datetime r2)) = 5 /\
    TimeTable.weekday r1 = "1" /\
    TimeTable.weekday r2 = "2".
Proof.
  eexists. eexists. split; [vm_compute; reflexivity|].
  repeat split; vm_compute; reflexivity.
Qed.

(** ** Re-running *)

(** C8 (as stated) fails: two engines that differ only in the row kept
    among duplicates and in the partition where the numbering of the
    songplays rows starts leave different stores on the scenario. *)
Lemma runs_differ_between_engines :
  ~ (forall E1 E2 : Engine,
       snd (main E1 scenario empty_store) = snd (main E2 scenario empty_store)).
Proof.
  intro H. specialize (H utc_engine other_engine).
  vm_compute in H. discriminate.
Qed.

(** C8 (amended). With the engine's choices fixed, a completed run leaves
    the same five tables whatever the output root held before, and running
    again on what it left changes nothing: every table is overwritten and
    nothing accumulates. *)
Theorem rerun_overwrites :
  forall E inp s1 s2,
    fst (main E inp s1) = Ok tt ->
    main E inp s2 = main E inp s1 /\
    main E inp (snd (main E inp s1)) = main E inp s1.
Proof.
  intros E inp s1 s2 Hok. rewrite !main_run in *. cbv zeta in *.
  destruct (time_table E (where_NextSong (log_data inp))) as [time_df|e];
    [|discriminate].
  destruct (songs_table E (song_data inp)) as [|r t]; [discriminate|].
  split; reflexivity.
Qed.

Lemma rerun_overwrites_witness :
  main utc_engine scenario scenario_store = main utc_engine scenario empty_store /\
  main utc_engine scenario (snd (main utc_engine scenario empty_store)) =
  main utc_engine scenario empty_store.
Proof.
  apply (rerun_overwrites utc_engine scenario empty_store scenario_store).
  vm_compute. reflexivity.
Defined.

(** ** The end-to-end scenario *)

Lemma dropDuplicates_singleton :
  forall (A K : Type) (key : A -> K) (key_eqb : K -> K -> bool) tie (x : A),
    dropDuplicates key key_eqb tie [x] = [x].
Proof.
  intros A K key key_eqb tie x. unfold dropDuplicates, groupBy, first, members. simpl.
  destruct (tie 1%nat) as [|[|n]]; reflexivity.
Qed.

Lemma get_timestamp_in_range :
  forall E ms y m d,
    local_date E ms = (y, m, d) -> 1 <= y <= 9999 -> get_timestamp E (Some ms) = Ok ms.
Proof.
  intros E ms y m d Hdate Hy. unfold get_timestamp. rewrite Hdate.
  destruct (Z.leb_spec 1 y); [|lia]. destruct (Z.leb_spec y 9999); [|lia]. reflexivity.
Qed.

Lemma date_format_year :
  forall E dt y m d, local_date E dt = (y, m, d) -> date_format E dt "y" = decimal y.
Proof. intros E dt y m d Hdate. unfold date_format. rewrite Hdate. reflexivity. Qed.

Lemma date_format_month :
  forall E dt y m d, local_date E dt = (y, m, d) -> date_format E dt "M" = decimal m.
Proof. intros E dt y m d Hdate. unfold date_format. rewrite Hdate. reflexivity. Qed.

(** Whatever the time zone, the play event of the scenario falls on 1 or
    2 November 2018 of the local calendar. *)
Lemma scenario_local_date :
  forall E,
    -64800 <= utc_offset E 1541121934 <= 64800 ->
    exists d, local_date E 1541121934796 = (2018, 11, d).
Proof.
  intros E Hoff. unfold local_date, local_day, local_second, epoch_second.
  change (1541121934796 / 1000) with 1541121934.
  assert (Hday : (1541121934 + utc_offset E 1541121934) / 86400 = 17836 \/
                 (1541121934 + utc_offset E 1541121934) / 86400 = 17837).
  { Z.div_mod_to_equations. lia. }
  destruct Hday as [-> | ->]; [exists 1|exists 2]; reflexivity.
Qed.

(** C1 (amended). On the scenario, in any time zone, the run completes
    and leaves one songs row, one artists row, one users row, one time
    row with year "2018" and month "11", and one songplays row: the play
    event matches no [song_id] and the left join keeps it with null
    [song_id] and [artist_id]. *)
Theorem scenario_tables :
  forall E s,
    -64800 <= utc_offset E 1541121934 <= 64800 ->
    exists s' song_r artist_r user_r time_r play_r,
      main E scenario s = (Ok tt, s') /\
      songs_parquet s' = Some [song_r] /\
      artists_parquet s' = Some [artist_r] /\
      users_parquet s' = Some [user_r] /\
      time_parquet s' = Some [time_r] /\
      TimeTable.year time_r = "2018" /\
      TimeTable.month time_r = "11" /\
      songplays_parquet s' = Some [play_r] /\
      SongplaysTable.start_time play_r = Some 1541121934796 /\
      SongplaysTable.song_id play_r = None /\
      SongplaysTable.artist_id play_r = None.
Proof.
  intros E s Hoff. rewrite main_run.
  destruct (scenario_local_date E Hoff) as (d & Hdate).
  change (where_NextSong (log_data scenario))
    with [log_record "NextSong" "Song A" 1541121934796 8].
  cbv zeta.
  assert (Htime : exists time_r,
             time_table E [log_record "NextSong" "Song A" 1541121934796 8] = Ok [time_r] /\
             TimeTable.ts time_r = Some 1541121934796 /\
             TimeTable.year time_r = "2018" /\ TimeTable.month time_r = "11").
  { unfold time_table, distinct_ts. cbn [map Log.ts log_record].
    rewrite dropDuplicates_singleton. cbn [traverse]. unfold time_row.
    rewrite (get_timestamp_in_range E _ _ _ _ Hdate) by lia.
    eexists. split; [reflexivity|]. cbn [TimeTable.ts TimeTable.year TimeTable.month].
    rewrite (date_format_year E _ _ _ _ Hdate), (date_format_month E _ _ _ _ Hdate).
    repeat split; reflexivity. }
  destruct Htime as (time_r & -> & Hts & Hyear & Hmonth).
  unfold songs_table, artists_table, users_table.
  cbn [song_data scenario map orderBy fold_right insert_ordered].
  rewrite !dropDuplicates_singleton.
  do 6 eexists. split; [reflexivity|]. cbn [songs_parquet artists_parquet users_parquet
    time_parquet songplays_parquet].
  split; [reflexivity|]. split; [reflexivity|]. split; [reflexivity|].
  split; [reflexivity|]. split; [exact Hyear|]. split; [exact Hmonth|].
  unfold songplays, songplays_all_columns, monotonically_increasing_id, left_join,
    song_matches, songplays_table, time_matches.
  cbn. rewrite Hts. cbn. auto.
Qed.

Lemma scenario_tables_witness :
  exists s' song_r artist_r user_r time_r play_r,
    main utc_engine scenario empty_store = (Ok tt, s') /\
    songs_parquet s' = Some [song_r] /\
    artists_parquet s' = Some [artist_r] /\
    users_parquet s' = Some [user_r] /\
    time_parquet s' = Some [time_r] /\
    TimeTable.year time_r = "2018" /\
    TimeTable.month time_r = "11" /\
    songplays_parquet s' = Some [play_r] /\
    SongplaysTable.start_time play_r = Some 1541121934796 /\
    SongplaysTable.song_id play_r = None /\
    SongplaysTable.artist_id play_r = None.
Proof.
  apply (scenario_tables utc_engine empty_store). vm_compute. split; discriminate.
Defined.

(** C1 (as stated) fails on its last item: the run of the scenario leaves
    one songplays row, not none. *)
Lemma scenario_songplays_is_not_empty :
  ~ (exists s' time_r,
       main utc_engine scenario empty_store = (Ok tt, s') /\
       option_map (@length SongsTable.row) (songs_parquet s') = Some 1%nat /\
       option_map (@length ArtistsTable.row) (artists_parquet s') = Some 1%nat /\
       option_map (@length UsersTable.row) (users_parquet s') = Some 1%nat /\
       time_parquet s' = Some [time_r] /\
       TimeTable.year time_r = "2018" /\
       TimeTable.month time_r = "11" /\
       option_map (@length SongplaysTable.row) (songplays_parquet s') = Some 0%nat).
Proof.
  intros (s' & time_r & Hrun & _ & _ & _ & _ & _ & _ & Hnone).
  vm_compute in Hrun. inversion Hrun; subst s'.
  vm_compute in Hnone. discriminate.
Qed.

(** * Further properties of the pipeline *)

(** ** More facts about dropDuplicates, orderBy and the ids *)

Section DropDuplicatesMore.

Context {A K : Type}.
Variable key : A -> K.
Variable key_eqb : K -> K -> bool.
Hypothesis key_eqb_spec : forall a b, key_eqb a b = true <-> a = b.

Local Abbreviation insert_group := (insert_group key key_eqb).
Local Abbreviation groupBy := (groupBy key key_eqb).
Local Abbreviation dropDuplicates := (dropDuplicates key key_eqb).

Lemma insert_group_fresh :
  forall x (gs : list (group A K)),
    ~ In (key x) (map gkey gs) -> insert_group x gs = (gs ++ [single key x])%list.
Proof.
  intros x gs. induction gs as [|g gs IH]; intro Hfresh; simpl; [reflexivity|].
  destruct (key_eqb (gkey g) (key x)) eqn:Hk.
  - apply key_eqb_spec in Hk. exfalso. apply Hfresh. simpl. auto.
  - f_equal. apply IH. intro Hin. apply Hfresh. simpl. auto.
Qed.

Lemma fold_insert_fresh :
  forall l (gs : list (group A K)),
    NoDup (map key l) ->
    (forall x, In x l -> ~ In (key x) (map gkey gs)) ->
    fold_left (fun gs x => insert_group x gs) l gs = (gs ++ map (single key) l)%list.
Proof.
  induction l as [|x l IH]; intros gs Hnd Hfresh; simpl.
  - rewrite app_nil_r. reflexivity.
  - simpl in Hnd. inversion Hnd as [|? ? Hx Hnd']; subst.
    rewrite insert_group_fresh by (apply Hfresh; simpl; auto).
    rewrite IH.
    + rewrite <- app_assoc. reflexivity.
    + exact Hnd'.
    + intros y Hy Hin. rewrite map_app in Hin. apply in_app_or in Hin.
      destruct Hin as [Hin|[Heq|[]]].
      * apply (Hfresh y); simpl; auto.
      * simpl in Heq. apply Hx. rewrite Heq. apply in_map. exact Hy.
Qed.

(** Rows with pairwise distinct keys all survive, whatever the engine. *)
Lemma dropDuplicates_distinct_keys :
  forall tie l, NoDup (map key l) -> dropDuplicates tie l = l.
Proof.
  intros tie l Hnd. unfold dropDuplicates, groupBy.
  rewrite fold_insert_fresh by (auto; intros x _ []).
  simpl. rewrite map_map. rewrite <- (map_id l) at 2. apply map_ext.
  intro x. unfold first, members, single. simpl.
  destruct (tie 1%nat) as [|[|n]]; reflexivity.
Qed.

(** When rows that share a key are equal rows, every member of a group is
    its head, and the engine has no choice to make. *)
Lemma first_is_head :
  forall tie l g,
    (forall x y, In x l -> In y l -> key x = key y -> x = y) ->
    In g (groupBy l) -> first tie g = ghead g.
Proof.
  intros tie l g Hexact Hg.
  assert (Hmem : forall x, In x (members g) -> x = ghead g).
  { intros x Hx. destruct (groupBy_ok key key_eqb key_eqb_spec l) as [_ Hkeys].
    apply Hexact.
    - apply (groupBy_members key key_eqb). exists g. auto.
    - apply (groupBy_members key key_eqb). exists g. split; [exact Hg|simpl; auto].
    - rewrite (Hkeys g Hg x Hx). symmetry. apply (Hkeys g Hg). simpl. auto. }
  apply Hmem. apply first_member.
Qed.

Lemma dropDuplicates_exact_duplicates :
  forall tie1 tie2 l,
    (forall x y, In x l -> In y l -> key x = key y -> x = y) ->
    dropDuplicates tie1 l = dropDuplicates tie2 l.
Proof.
  intros tie1 tie2 l Hexact. unfold dropDuplicates.
  apply map_ext_in. intros g Hg.
  rewrite (first_is_head tie1 l g Hexact Hg), (first_is_head tie2 l g Hexact Hg).
  reflexivity.
Qed.

(** Deduplication never adds rows. *)
Lemma dropDuplicates_length :
  forall tie l, (length (dropDuplicates tie l) <= length l)%nat.
Proof.
  intros tie l. apply NoDup_incl_length.
  - apply (NoDup_map_inv key). apply dropDuplicates_NoDup. exact key_eqb_spec.
  - intros r Hr. apply (dropDuplicates_incl key key_eqb tie l r Hr).
Qed.

End DropDuplicatesMore.

Lemma insert_ordered_Permutation :
  forall (A : Type) (col : A -> option string) x l,
    Permutation (x :: l) (insert_ordered col x l).
Proof.
  intros A col x l. induction l as [|y l IH]; simpl; [apply Permutation_refl|].
  destruct (nulls_first_leb (col x) (col y)); [apply Permutation_refl|].
  apply perm_trans with (y :: x :: l); [apply perm_swap|].
  apply perm_skip. exact IH.
Qed.

Lemma orderBy_Permutation :
  forall (A : Type) (col : A -> option string) l, Permutation l (orderBy col l).
Proof.
  intros A col l. unfold orderBy. induction l as [|x l IH]; simpl; [constructor|].
  apply perm_trans with (x :: fold_right (insert_ordered col) [] l).
  - apply perm_skip. exact IH.
  - apply insert_ordered_Permutation.
Qed.

Lemma orderBy_In :
  forall (A : Type) (col : A -> option string) l x, In x (orderBy col l) <-> In x l.
Proof.
  intros A col l x. split; intro H.
  - apply (Permutation_in x (Permutation_sym (orderBy_Permutation A col l))). exact H.
  - apply (Permutation_in x (orderBy_Permutation A col l)). exact H.
Qed.

Lemma nulls_first_leb_total :
  forall a b, nulls_first_leb a b = true \/ nulls_first_leb b a = true.
Proof.
  intros [x|] [y|]; simpl; auto. apply String.leb_total.
Qed.

Lemma insert_ordered_Sorted :
  forall (A : Type) (col : A -> option string) x l,
    Sorted (fun a b => nulls_first_leb (col a) (col b) = true) l ->
    Sorted (fun a b => nulls_first_leb (col a) (col b) = true) (insert_ordered col x l).
Proof.
  intros A col x l Hs. induction Hs as [|y l Hs IH Hhd]; simpl.
  - constructor; constructor.
  - destruct (nulls_first_leb (col x) (col y)) eqn:Hxy.
    + constructor; [constructor; assumption|constructor; exact Hxy].
    + constructor; [exact IH|].
      destruct l as [|z l]; simpl.
      * constructor. destruct (nulls_first_leb_total (col x) (col y)); congruence.
      * destruct (nulls_first_leb (col x) (col z)).
        -- constructor. destruct (nulls_first_leb_total (col x) (col y)); congruence.
        -- inversion Hhd. constructor. assumption.
Qed.

Lemma with_ids_increasing :
  forall (A : Type) gap (rows : list A) k next,
    StronglySorted Z.lt (map fst (with_ids gap k next rows)) /\
    Forall (fun i => next <= i) (map fst (with_ids gap k next rows)).
Proof.
  intros A gap. induction rows as [|r rows IH]; intros k next; simpl.
  - split; constructor.
  - destruct (IH (S k) (next + Z.of_N (gap k) + 1)) as [Hs Hf]. split.
    + constructor; [exact Hs|].
      apply Forall_impl with (2 := Hf). intros i Hi. lia.
    + constructor; [lia|].
      apply Forall_impl with (2 := Hf). intros i Hi. lia.
Qed.

Lemma with_ids_same_rows :
  forall (A : Type) gap1 gap2 (rows : list A) k1 k2 next1 next2,
    Forall2 (fun a b => snd a = snd b)
      (with_ids gap1 k1 next1 rows) (with_ids gap2 k2 next2 rows).
Proof.
  intros A gap1 gap2. induction rows as [|r rows IH]; intros; simpl; constructor; auto.
Qed.

Lemma StronglySorted_lt_NoDup : forall l, StronglySorted Z.lt l -> NoDup l.
Proof.
  induction 1 as [|a l Hs IH Hf]; constructor; [|exact IH].
  intro Hin. rewrite Forall_forall in Hf. specialize (Hf a Hin). lia.
Qed.

Lemma select_songplays_id :
  forall r, Songplays.songplay_id (select_songplays r) = fst r.
Proof. intros [idx [e o]]. reflexivity. Qed.

Lemma songplays_ids :
  forall E df song_df,
    map Songplays.songplay_id (songplays E df song_df) =
    map fst (songplays_all_columns E df song_df).
Proof.
  intros E df song_df. unfold songplays. rewrite map_map.
  apply map_ext. apply select_songplays_id.
Qed.

Lemma completed_songplays :
  forall E inp s s',
    main E inp s = (Ok tt, s') ->
    exists time_df sp,
      time_table E (where_NextSong (log_data inp)) = Ok time_df /\
      songplays_parquet s' = Some sp /\
      sp = songplays_table
             (songplays E (where_NextSong (log_data inp)) (songs_table E (song_data inp)))
             time_df /\
      map projected_columns sp =
      songplays E (where_NextSong (log_data inp)) (songs_table E (song_data inp)).
Proof.
  intros E inp s s' Hrun.
  destruct (main_completed E inp s s' Hrun) as (time_df & Htime & ->).
  exists time_df. eexists. split; [exact Htime|]. split; [reflexivity|].
  split; [reflexivity|]. apply join_keeps_all.
  intros p Hp. apply (candidate_has_one_match E _ _ time_df p Htime Hp).
Qed.

Lemma songplays_row_origin :
  forall E df song_df time_df r,
    In r (songplays_table (songplays E df song_df) time_df) ->
    exists idx e o t,
      In (e, o) (left_join df song_df) /\ In t time_df /\
      sql_eq Z.eqb (Log.ts e) (TimeTable.ts t) = true /\
      r = select_songplays_table (select_songplays (idx, (e, o))) t.
Proof.
  intros E df song_df time_df r Hr. apply songplays_table_In in Hr.
  destruct Hr as (p & t & Hp & Ht & Heq & ->).
  destruct (songplays_In E df song_df p Hp) as (idx & e & o & Hjoin & ->).
  exists idx, e, o, t. simpl in Heq. auto.
Qed.

(** ** Artists table *)

(** X1. Whatever row the engine keeps among duplicates, the artists table
    that [main] writes has no two rows with the same [artist_id], each of
    its rows is the projection of a catalog record, and every [artist_id]
    of the catalog (null included) has exactly one row. *)
Theorem artists_table_one_row_per_artist_id :
  forall E inp s,
    exists t,
      artists_parquet (snd (main E inp s)) = Some t /\
      NoDup (map ArtistsTable.artist_id t) /\
      (forall r, In r t -> exists c, In c (song_data inp) /\ r = select_artists c) /\
      (forall c, In c (song_data inp) ->
                 count_key ArtistsTable.artist_id string_key_eqb (Song.artist_id c) t = 1%nat).
Proof.
  intros E inp s. exists (artists_table E (song_data inp)). split; [|split; [|split]].
  - apply main_writes_dimensions.
  - apply dropDuplicates_NoDup. exact string_key_eqb_spec.
  - intros r Hr. unfold artists_table in Hr. apply dropDuplicates_incl in Hr.
    apply orderBy_In in Hr. apply in_map_iff in Hr.
    destruct Hr as (c & Hc & Hin). eauto.
  - intros c Hc. unfold artists_table.
    change (Song.artist_id c) with (ArtistsTable.artist_id (select_artists c)).
    apply dropDuplicates_one_per_key; [exact string_key_eqb_spec|].
    apply orderBy_In. apply in_map. exact Hc.
Qed.

(** X2. [orderBy] returns the rows it was given, each as many times as
    it came, arranged so that every row is followed by a row whose column is
    not smaller, nulls coming first. *)
Theorem orderBy_sorts_nulls_first :
  forall (A : Type) (col : A -> option string) (l : list A),
    Permutation l (orderBy col l) /\
    Sorted (fun a b => nulls_first_leb (col a) (col b) = true) (orderBy col l).
Proof.
  intros A col l. split; [apply orderBy_Permutation|].
  unfold orderBy. induction l as [|x l IH]; simpl; [constructor|].
  apply insert_ordered_Sorted. exact IH.
Qed.

(** ** Songplays ids and references *)

(** X3. After a completed run the [songplay_id] values are non-negative,
    grow strictly along the rows of the songplays table and are therefore
    pairwise distinct: [songplay_id] is a key of the table. *)
Theorem songplay_id_is_a_key :
  forall E inp s s',
    main E inp s = (Ok tt, s') ->
    exists sp,
      songplays_parquet s' = Some sp /\
      StronglySorted Z.lt (map SongplaysTable.songplay_id sp) /\
      NoDup (map SongplaysTable.songplay_id sp) /\
      Forall (fun i => 0 <= i) (map SongplaysTable.songplay_id sp).
Proof.
  intros E inp s s' Hrun.
  destruct (completed_songplays E inp s s' Hrun) as (time_df & sp & _ & Hsp & _ & Hproj).
  exists sp. split; [exact Hsp|].
  assert (Hids : map SongplaysTable.songplay_id sp =
                 map fst (songplays_all_columns E (where_NextSong (log_data inp))
                            (songs_table E (song_data inp)))).
  { rewrite <- songplays_ids, <- Hproj, map_map. reflexivity. }
  rewrite Hids. unfold songplays_all_columns, monotonically_increasing_id.
  destruct (with_ids_increasing _ (id_gap E)
              (left_join (where_NextSong (log_data inp)) (songs_table E (song_data inp)))
              0%nat 0) as [Hs Hf].
  split; [exact Hs|]. split; [apply StronglySorted_lt_NoDup; exact Hs|exact Hf].
Qed.

Lemma songplay_id_is_a_key_witness :
  exists sp,
    songplays_parquet (snd (main other_engine shared_song_id empty_store)) = Some sp /\
    StronglySorted Z.lt (map SongplaysTable.songplay_id sp) /\
    NoDup (map SongplaysTable.songplay_id sp) /\
    Forall (fun i => 0 <= i) (map SongplaysTable.songplay_id sp).
Proof.
  apply (songplay_id_is_a_key other_engine shared_song_id empty_store
           (snd (main other_engine shared_song_id empty_store))).
  vm_compute. reflexivity.
Defined.

(** X5. After a completed run every songplays row takes its [user_id],
    [level], [session_id], [location] and [user_agent] from one "NextSong"
    event, and its [user_id] is the [userId] of a row of the users table
    written by the same run. *)
Theorem songplays_reference_users_table :
  forall E inp s s',
    main E inp s = (Ok tt, s') ->
    exists users sp,
      users_parquet s' = Some users /\
      songplays_parquet s' = Some sp /\
      forall r, In r sp ->
        (exists e,
            In e (log_data inp) /\ Log.page e = Some "NextSong" /\
            SongplaysTable.start_time r = Log.ts e /\
            SongplaysTable.user_id r = Log.userId e /\
            SongplaysTable.level r = Log.level e /\
            SongplaysTable.session_id r = Log.sessionId e /\
            SongplaysTable.location r = Log.location e /\
            SongplaysTable.user_agent r = Log.userAgent e) /\
        (exists u, In u users /\ UsersTable.userId u = SongplaysTable.user_id r).
Proof.
  intros E inp s s' Hrun.
  destruct (main_completed E inp s s' Hrun) as (time_df & Htime & ->).
  eexists. eexists. split; [reflexivity|]. split; [reflexivity|].
  intros r Hr. apply songplays_row_origin in Hr.
  destruct Hr as (idx & e & o & t & Hjoin & _ & _ & ->).
  apply left_join_In in Hjoin. destruct Hjoin as [He _]. split.
  - apply where_NextSong_In in He. destruct He as [He Hpage].
    exists e. simpl. repeat split; auto.
  - assert (Hin : In (UsersTable.userId (select_users e))
                     (map UsersTable.userId
                        (users_table E (where_NextSong (log_data inp))))).
    { unfold users_table.
      apply (dropDuplicates_complete UsersTable.userId long_key_eqb long_key_eqb_spec).
      apply in_map. exact He. }
    apply in_map_iff in Hin. destruct Hin as (u & Hu & Hin).
    exists u. split; [exact Hin|]. simpl. exact Hu.
Qed.

Lemma songplays_reference_users_table_witness :
  exists users sp,
    users_parquet scenario_store = Some users /\
    songplays_parquet scenario_store = Some sp /\
    forall r, In r sp ->
      (exists e,
          In e (log_data scenario) /\ Log.page e = Some "NextSong" /\
          SongplaysTable.start_time r = Log.ts e /\
          SongplaysTable.user_id r = Log.userId e /\
          SongplaysTable.level r = Log.level e /\
          SongplaysTable.session_id r = Log.sessionId e /\
          SongplaysTable.location r = Log.location e /\
          SongplaysTable.user_agent r = Log.userAgent e) /\
      (exists u, In u users /\ UsersTable.userId u = SongplaysTable.user_id r).
Proof.
  apply (songplays_reference_users_table utc_engine scenario empty_store scenario_store).
  vm_compute. reflexivity.
Defined.

(** ** Completion, failure and the order of the two phases *)

Lemma get_timestamp_Ok_iff :
  forall E ms,
    get_timestamp E (Some ms) = Ok ms <->
    exists y m d, local_date E ms = (y, m, d) /\ 1 <= y <= 9999.
Proof.
  intros E ms. unfold get_timestamp.
  destruct (local_date E ms) as [[y m] d]. split.
  - intro H. exists y, m, d. split; [reflexivity|].
    destruct (Z.leb_spec 1 y); destruct (Z.leb_spec y 9999);
      simpl in H; try discriminate. lia.
  - intros (y' & m' & d' & Heq & Hy). inversion Heq; subst.
    destruct (Z.leb_spec 1 y'); destruct (Z.leb_spec y' 9999); simpl; try lia.
    reflexivity.
Qed.




(** X6. A run completes only if every "NextSong" event has a [ts] that
    is not null and falls in the years 1 to 9999 of the local calendar. *)
Theorem completed_run_has_timestamps_in_range :
  forall E inp s s',
    main E inp s = (Ok tt, s') ->
    forall e, In e (log_data inp) -> Log.page e = Some "NextSong" ->
      exists ms y m d,
        Log.ts e = Some ms /\ local_date E ms = (y, m, d) /\ 1 <= y <= 9999.
Proof.
  intros E inp s s' Hrun e He Hpage.
  destruct (main_completed_timestamps E inp s s' Hrun e He Hpage) as (ms & Hts & Hg).
  apply get_timestamp_Ok_iff in Hg. destruct Hg as (y & m & d & Hdate & Hy).
  exists ms, y, m, d. auto.
Qed.

Lemma completed_run_has_timestamps_in_range_witness :
  exists ms y m d,
    Log.ts (log_record "NextSong" "Song A" 1541121934796 8) = Some ms /\
    local_date utc_engine ms = (y, m, d) /\ 1 <= y <= 9999.
Proof.
  apply (completed_run_has_timestamps_in_range utc_engine scenario empty_store
           scenario_store).
  - vm_compute. reflexivity.
  - simpl. left. reflexivity.
  - reflexivity.
Defined.



(** X8. [process_log_data] on an output root that has no songs table
    fails with an analysis error on "songs.parquet", after it has written
    the users and time tables; no songplays table is written. *)
Theorem process_log_data_without_songs_table :
  forall E log s time_df,
    songs_parquet s = None ->
    time_table E (where_NextSong log) = Ok time_df ->
    process_log_data E log s =
    (Err (AnalysisException "songs.parquet"),
     {| songs_parquet := None;
        artists_parquet := artists_parquet s;
        users_parquet := Some (users_table E (where_NextSong log));
        time_parquet := Some time_df;
        songplays_parquet := songplays_parquet s |}).
Proof.
  intros E log s time_df Hsongs Htime.
  unfold process_log_data, bind, lift, write_users, write_time, read_songs.
  rewrite Htime. simpl. rewrite Hsongs. reflexivity.
Qed.

Lemma process_log_data_without_songs_table_witness :
  exists time_df,
    process_log_data utc_engine (log_data scenario) empty_store =
    (Err (AnalysisException "songs.parquet"),
     {| songs_parquet := None;
        artists_parquet := artists_parquet empty_store;
        users_parquet :=
          Some (users_table utc_engine (where_NextSong (log_data scenario)));
        time_parquet := Some time_df;
        songplays_parquet := songplays_parquet empty_store |}).
Proof.
  eexists.
  apply (process_log_data_without_songs_table utc_engine (log_data scenario) empty_store).
  - reflexivity.
  - vm_compute. reflexivity.
Defined.

(** X9. Each phase only touches its own tables: [process_song_data]
    always completes and leaves the users, time and songplays tables as
    they were, and [process_log_data], whether it completes or fails, leaves
    the songs and artists tables as they were. *)
Theorem phases_touch_only_their_tables :
  forall E inp s,
    (fst (process_song_data E (song_data inp) s) = Ok tt /\
     users_parquet (snd (process_song_data E (song_data inp) s)) = users_parquet s /\
     time_parquet (snd (process_song_data E (song_data inp) s)) = time_parquet s /\
     songplays_parquet (snd (process_song_data E (song_data inp) s)) =
     songplays_parquet s) /\
    (songs_parquet (snd (process_log_data E (log_data inp) s)) = songs_parquet s /\
     artists_parquet (snd (process_log_data E (log_data inp) s)) = artists_parquet s).
Proof.
  intros E inp s. split.
  - repeat split; reflexivity.
  - unfold process_log_data, bind, lift, write_users, write_time, read_songs,
      write_songplays.
    destruct (time_table E (where_NextSong (log_data inp))) as [time_df|e]; simpl;
      [|split; reflexivity].
    destruct (songs_parquet s) as [[|r t]|]; simpl; split; reflexivity.
Qed.

Lemma where_NextSong_none :
  forall log,
    (forall e, In e log -> Log.page e <> Some "NextSong") -> where_NextSong log = [].
Proof.
  intros log H. destruct (where_NextSong log) as [|e l] eqn:Hw; [reflexivity|].
  assert (Hin : In e (where_NextSong log)) by (rewrite Hw; simpl; auto).
  apply where_NextSong_In in Hin. destruct Hin as [Hin Hpage].
  exfalso. apply (H e Hin Hpage).
Qed.

(** X10. When the log has no "NextSong" record (other pages, or no page
    at all), a run that completes has written the users, time and songplays
    tables empty. *)
Theorem no_play_event_gives_empty_tables :
  forall E inp s s',
    (forall e, In e (log_data inp) -> Log.page e <> Some "NextSong") ->
    main E inp s = (Ok tt, s') ->
    users_parquet s' = Some [] /\
    time_parquet s' = Some [] /\
    songplays_parquet s' = Some [].
Proof.
  intros E inp s s' H Hrun.
  destruct (main_completed E inp s s' Hrun) as (time_df & Htime & ->).
  rewrite (where_NextSong_none _ H) in *.
  change (time_table E []) with (@Ok (list TimeTable.row) []) in Htime.
  inversion Htime; subst time_df. repeat split; reflexivity.
Qed.

Lemma no_play_event_gives_empty_tables_witness :
  users_parquet (snd (main utc_engine other_pages_input scenario_store)) = Some [] /\
  time_parquet (snd (main utc_engine other_pages_input scenario_store)) = Some [] /\
  songplays_parquet (snd (main utc_engine other_pages_input scenario_store)) = Some [].
Proof.
  apply (no_play_event_gives_empty_tables utc_engine other_pages_input scenario_store
           (snd (main utc_engine other_pages_input scenario_store))).
  - intros e [<-|[<-|[]]]; simpl; discriminate.
  - vm_compute. reflexivity.
Defined.

(** ** The columns settled by the left join *)

Lemma candidate_is_written :
  forall E df song_df time_df p,
    time_table E df = Ok time_df ->
    In p (songplays E df song_df) ->
    exists t,
      In t time_df /\ TimeTable.ts t = Songplays.start_time p /\
      In (select_songplays_table p t)
         (songplays_table (songplays E df song_df) time_df).
Proof.
  intros E df song_df time_df p Htime Hp.
  destruct (candidate_has_one_match E df song_df time_df p Htime Hp) as (t & Hone).
  assert (Ht : In t (time_matches time_df p)) by (rewrite Hone; simpl; auto).
  unfold time_matches in Ht. apply filter_In in Ht. destruct Ht as [Ht Heq].
  exists t. split; [exact Ht|]. split.
  - apply sql_eq_long_true in Heq. destruct Heq as (v & Hv & Hts). congruence.
  - apply songplays_table_In. exists p, t. auto.
Qed.


Lemma written_columns_projected :
  forall r, written_columns r = candidate_columns (projected_columns r).
Proof. intros []. reflexivity. Qed.

Lemma candidate_columns_select :
  forall r,
    candidate_columns (select_songplays r) =
    event_columns (fst (snd r))
      match snd (snd r) with Some t => SongsTable.song_id t | None => None end.
Proof. intros [idx [e o]]. reflexivity. Qed.

Lemma matched_song_id :
  forall song_df e t, In t (song_matches song_df e) -> SongsTable.song_id t = Log.song e.
Proof.
  intros song_df e t Ht. unfold song_matches in Ht. apply filter_In in Ht.
  destruct Ht as [_ Heq]. apply sql_eq_string_true in Heq.
  destruct Heq as (v & Hsong & Hid). congruence.
Qed.

Lemma left_join_rows_owed :
  forall df song_df,
    map (fun eo : Log.record * option SongsTable.row =>
           event_columns (fst eo)
             match snd eo with Some t => SongsTable.song_id t | None => None end)
        (left_join df song_df) =
    flat_map (rows_owed song_df) df.
Proof.
  intros df song_df. unfold left_join. induction df as [|e df IH]; [reflexivity|].
  cbn [flat_map]. rewrite map_app, <- IH. f_equal. unfold rows_owed.
  pose proof (matched_song_id song_df e) as Hid.
  destruct (song_matches song_df e) as [|t ms]; [reflexivity|].
  rewrite map_map. cbn [fst snd length].
  assert (Hall : forall l : list SongsTable.row,
             (forall x, In x l -> SongsTable.song_id x = Log.song e) ->
             map (fun x => event_columns e (SongsTable.song_id x)) l =
             repeat (event_columns e (Log.song e)) (length l)).
  { induction l as [|x l IHl]; intro Hl; [reflexivity|].
    simpl. rewrite (Hl x (or_introl eq_refl)), IHl by (intros y Hy; apply Hl; simpl; auto).
    reflexivity. }
  apply (Hall (t :: ms) Hid).
Qed.

Lemma written_columns_of_run :
  forall E df song_df time_df,
    time_table E df = Ok time_df ->
    map written_columns (songplays_table (songplays E df song_df) time_df) =
    flat_map (rows_owed song_df) df.
Proof.
  intros E df song_df time_df Htime.
  rewrite (map_ext _ _ written_columns_projected), <- map_map.
  rewrite join_keeps_all
    by (intros p Hp; apply (candidate_has_one_match E df song_df time_df p Htime Hp)).
  unfold songplays, songplays_all_columns, monotonically_increasing_id.
  rewrite map_map, (map_ext _ _ candidate_columns_select).
  rewrite <- left_join_rows_owed.
  rewrite <- (with_ids_rows _ (id_gap E) (left_join df song_df) 0%nat 0) at 2.
  rewrite map_map. reflexivity.
Qed.

(** X11. When no "NextSong" event has for [song] text the [song_id] of a
    catalog record, a run that completes writes one songplays row for each
    "NextSong" event, counted as many times as the event occurs, with the
    columns of the event and with null [song_id] and [artist_id]. *)
Theorem unmatched_log_gives_one_null_row_per_event :
  forall E inp s s',
    (forall e c v, In e (log_data inp) -> Log.page e = Some "NextSong" ->
                   In c (song_data inp) ->
                   ~ (Log.song e = Some v /\ Song.song_id c = Some v)) ->
    main E inp s = (Ok tt, s') ->
    exists sp,
      songplays_parquet s' = Some sp /\
      Permutation (map written_columns sp)
        (map (fun e => event_columns e None) (where_NextSong (log_data inp))) /\
      forall r, In r sp ->
        SongplaysTable.song_id r = None /\ SongplaysTable.artist_id r = None.
Proof.
  intros E inp s s' Hno Hrun.
  destruct (main_completed E inp s s' Hrun) as (time_df & Htime & ->).
  assert (Hnone : forall e, In e (where_NextSong (log_data inp)) ->
                            song_matches (songs_table E (song_data inp)) e = []).
  { intros e He. apply where_NextSong_In in He. destruct He as [He Hpage].
    destruct (song_matches (songs_table E (song_data inp)) e) as [|t ms] eqn:Hm;
      [reflexivity|].
    assert (Ht : In t (song_matches (songs_table E (song_data inp)) e))
      by (rewrite Hm; simpl; auto).
    unfold song_matches in Ht. apply filter_In in Ht. destruct Ht as [Ht Heq].
    apply sql_eq_string_true in Heq. destruct Heq as (v & Hsong & Hid).
    unfold songs_table in Ht. apply dropDuplicates_incl in Ht.
    apply in_map_iff in Ht. destruct Ht as (c & <- & Hc).
    exfalso. apply (Hno e c v He Hpage Hc). auto. }
  eexists. split; [reflexivity|]. split.
  - rewrite (written_columns_of_run E _ _ time_df Htime).
    assert (Heq : forall l,
               (forall e, In e l ->
                          song_matches (songs_table E (song_data inp)) e = []) ->
               flat_map (rows_owed (songs_table E (song_data inp))) l =
               map (fun e => event_columns e None) l).
    { induction l as [|e l IH]; intro Hl; [reflexivity|].
      cbn [flat_map map]. rewrite IH by (intros x Hx; apply Hl; simpl; auto).
      unfold rows_owed. rewrite (Hl e (or_introl eq_refl)). reflexivity. }
    rewrite (Heq _ Hnone). apply Permutation_refl.
  - intros r Hr. apply songplays_row_origin in Hr.
    destruct Hr as (idx & e & o & t & Hjoin & _ & _ & ->).
    apply left_join_In in Hjoin. destruct Hjoin as [He Ho].
    destruct o as [t0|]; [|simpl; auto].
    destruct Ho as [Ht0 Heq].
    assert (Hin : In t0 (song_matches (songs_table E (song_data inp)) e))
      by (unfold song_matches; apply filter_In; auto).
    rewrite (Hnone e He) in Hin. contradiction.
Qed.

Lemma unmatched_log_gives_one_null_row_per_event_witness :
  exists sp,
    songplays_parquet (snd (main utc_engine repeated_scenario empty_store)) = Some sp /\
    Permutation (map written_columns sp)
      (map (fun e => event_columns e None)
           (where_NextSong (log_data repeated_scenario))) /\
    forall r, In r sp ->
      SongplaysTable.song_id r = None /\ SongplaysTable.artist_id r = None.
Proof.
  apply (unmatched_log_gives_one_null_row_per_event utc_engine repeated_scenario
           empty_store (snd (main utc_engine repeated_scenario empty_store))).
  - intros e c v [<-|[<-|[]]] _ [<-|[<-|[]]] [Hs Hc]; simpl in Hs, Hc; congruence.
  - vm_compute. reflexivity.
Defined.

(** ** Time table: keys and ranges *)

(** X12. After a completed run the time table has exactly one row for
    each [ts] carried by a "NextSong" event and no other row: the [ts]
    values are never null and pairwise distinct. *)
Theorem time_table_one_row_per_ts :
  forall E inp s s',
    main E inp s = (Ok tt, s') ->
    exists time_df,
      time_parquet s' = Some time_df /\
      NoDup (map TimeTable.ts time_df) /\
      (forall r, In r time_df ->
         exists ms e,
           TimeTable.ts r = Some ms /\
           In e (log_data inp) /\ Log.page e = Some "NextSong" /\ Log.ts e = Some ms) /\
      (forall e, In e (log_data inp) -> Log.page e = Some "NextSong" ->
                 count_key TimeTable.ts long_key_eqb (Log.ts e) time_df = 1%nat).
Proof.
  intros E inp s s' Hrun.
  destruct (main_completed E inp s s' Hrun) as (time_df & Htime & ->).
  exists time_df. split; [reflexivity|].
  destruct (time_table_keys E _ time_df Htime) as (Hnd & Hkeys & _).
  split; [exact Hnd|]. split.
  - intros r Hr.
    destruct (time_table_rows E _ time_df r Htime Hr) as (ms & Hin & Hrow).
    destruct (time_row_inv E _ r Hrow) as (ms' & Heq & _ & ->).
    inversion Heq; subst ms'. apply distinct_ts_In in Hin.
    destruct Hin as (e & He & Hts). apply where_NextSong_In in He.
    destruct He as [He Hpage]. exists ms, e. simpl. auto.
  - intros e He Hpage. apply count_key_NoDup; [exact long_key_eqb_spec|exact Hnd|].
    apply Hkeys. exists e. split; [apply where_NextSong_In; auto|reflexivity].
Qed.

Lemma time_table_one_row_per_ts_witness :
  exists time_df,
    time_parquet (snd (main utc_engine repeated_scenario empty_store)) = Some time_df /\
    NoDup (map TimeTable.ts time_df) /\
    (forall r, In r time_df ->
       exists ms e,
         TimeTable.ts r = Some ms /\
         In e (log_data repeated_scenario) /\ Log.page e = Some "NextSong" /\
         Log.ts e = Some ms) /\
    (forall e, In e (log_data repeated_scenario) -> Log.page e = Some "NextSong" ->
               count_key TimeTable.ts long_key_eqb (Log.ts e) time_df = 1%nat).
Proof.
  apply (time_table_one_row_per_ts utc_engine repeated_scenario empty_store
           (snd (main utc_engine repeated_scenario empty_store))).
  vm_compute. reflexivity.
Defined.

Lemma era_days_checked_sound :
  forall count n k,
    era_days_checked count n = true ->
    n <= k < n + Z.of_nat count ->
    let '(y, m, d) := date_in_era k in
    0 <= y <= 399 /\ 1 <= m <= 12 /\ 1 <= d <= 31 /\ day_of_era_of_date y m d = k.
Proof.
  induction count as [|count IH]; intros n k Hall Hk; [lia|].
  cbn [era_days_checked] in Hall. apply andb_true_iff in Hall.
  destruct Hall as [Hn Hrest].
  destruct (Z.eq_dec k n) as [->|Hne].
  - destruct (date_in_era n) as [[y m] d].
    repeat (apply andb_true_iff in Hn; destruct Hn as [Hn ?]).
    repeat match goal with
           | H : (_ <=? _) = true |- _ => apply Z.leb_le in H
           | H : (_ =? _) = true |- _ => apply Z.eqb_eq in H
           end.
    repeat split; try lia; assumption.
  - apply (IH (n + 1)); [exact Hrest|lia].
Qed.

Lemma date_in_era_range :
  forall k,
    0 <= k < 146097 ->
    let '(y, m, d) := date_in_era k in
    0 <= y <= 399 /\ 1 <= m <= 12 /\ 1 <= d <= 31 /\ day_of_era_of_date y m d = k.
Proof.
  intros k Hk. apply (era_days_checked_sound (Z.to_nat 146097) 0).
  - vm_compute. reflexivity.
  - lia.
Qed.

Lemma days_from_civil_in_era :
  forall era y m d,
    0 <= y <= 399 ->
    days_from_civil (y + era * 400 + (if m <=? 2 then 1 else 0)) m d =
    era * 146097 + day_of_era_of_date y m d - 719468.
Proof.
  intros era y m d Hy. unfold days_from_civil, day_of_era_of_date.
  assert (Hy' : (if m <=? 2
                 then y + era * 400 + (if m <=? 2 then 1 else 0) - 1
                 else y + era * 400 + (if m <=? 2 then 1 else 0)) = y + era * 400)
    by (destruct (m <=? 2); lia).
  rewrite Hy'.
  assert (Hera : (y + era * 400) / 400 = era) by (Z.div_mod_to_equations; lia).
  rewrite Hera. replace (y + era * 400 - era * 400) with y by lia. reflexivity.
Qed.

Lemma civil_from_days_in_era :
  forall n,
    civil_from_days n =
    let era := (n + 719468) / 146097 in
    let '(y, m, d) := date_in_era (n + 719468 - era * 146097) in
    (y + era * 400 + (if m <=? 2 then 1 else 0), m, d).
Proof. intro n. reflexivity. Qed.

(** In every date given by [civil_from_days] the month is between 1 and
    12 and the day between 1 and 31. *)
Lemma civil_from_days_range :
  forall n, let '(y, m, d) := civil_from_days n in 1 <= m <= 12 /\ 1 <= d <= 31.
Proof.
  intro n. rewrite civil_from_days_in_era. cbv zeta.
  assert (Hk : 0 <= n + 719468 - (n + 719468) / 146097 * 146097 < 146097)
    by (Z.div_mod_to_equations; lia).
  pose proof (date_in_era_range _ Hk) as Hr.
  destruct (date_in_era (n + 719468 - (n + 719468) / 146097 * 146097)) as [[y m] d].
  lia.
Qed.

(** [days_from_civil] gives back the day that [civil_from_days] was given,
    for every day. *)
Lemma days_from_civil_inverts_civil_from_days :
  forall n, let '(y, m, d) := civil_from_days n in days_from_civil y m d = n.
Proof.
  intro n. rewrite civil_from_days_in_era. cbv zeta.
  assert (Hk : 0 <= n + 719468 - (n + 719468) / 146097 * 146097 < 146097)
    by (Z.div_mod_to_equations; lia).
  pose proof (date_in_era_range _ Hk) as Hr.
  destruct (date_in_era (n + 719468 - (n + 719468) / 146097 * 146097)) as [[y m] d].
  destruct Hr as (Hy & _ & _ & Hback).
  rewrite days_from_civil_in_era by exact Hy. rewrite Hback. lia.
Qed.

Lemma date_format_day :
  forall E dt y m d, local_date E dt = (y, m, d) -> date_format E dt "d" = decimal d.
Proof. intros E dt y m d Hdate. unfold date_format. rewrite Hdate. reflexivity. Qed.

Lemma date_format_day_of_week_in_month :
  forall E dt y m d,
    local_date E dt = (y, m, d) -> date_format E dt "F" = decimal ((d - 1) / 7 + 1).
Proof. intros E dt y m d Hdate. unfold date_format. rewrite Hdate. reflexivity. Qed.

(** X13. After a completed run every time row has an [hour] between 0
    and 23, and its [year], [month], [day] and [weekday] columns are the
    decimal writings of a year between 1 and 9999, a month between 1 and
    12, a day between 1 and 31 and a rank between 1 and 5. *)
Theorem time_columns_in_calendar_range :
  forall E inp s s',
    main E inp s = (Ok tt, s') ->
    exists time_df,
      time_parquet s' = Some time_df /\
      forall r, In r time_df ->
        0 <= TimeTable.hour r <= 23 /\
        exists y m d k,
          TimeTable.year r = decimal y /\ 1 <= y <= 9999 /\
          TimeTable.month r = decimal m /\ 1 <= m <= 12 /\
          TimeTable.day r = decimal d /\ 1 <= d <= 31 /\
          TimeTable.weekday r = decimal k /\ 1 <= k <= 5.
Proof.
  intros E inp s s' Hrun.
  destruct (main_completed E inp s s' Hrun) as (time_df & Htime & ->).
  exists time_df. split; [reflexivity|]. intros r Hr.
  destruct (time_table_rows E _ time_df r Htime Hr) as (ms & _ & Hrow).
  destruct (time_row_inv E _ r Hrow) as (ms' & Heq & Hg & ->).
  inversion Heq; subst ms'.
  apply get_timestamp_Ok_iff in Hg. destruct Hg as (y & m & d & Hdate & Hy).
  cbn [TimeTable.hour TimeTable.year TimeTable.month TimeTable.day TimeTable.weekday].
  split.
  - unfold hour. Z.div_mod_to_equations. lia.
  - pose proof (civil_from_days_range (local_day E ms)) as Hmd.
    unfold local_date in Hdate. rewrite Hdate in Hmd. fold (local_date E ms) in Hdate.
    exists y, m, d, ((d - 1) / 7 + 1).
    rewrite (date_format_year E _ _ _ _ Hdate), (date_format_month E _ _ _ _ Hdate),
      (date_format_day E _ _ _ _ Hdate),
      (date_format_day_of_week_in_month E _ _ _ _ Hdate).
    repeat split; try reflexivity; try lia.
    + Z.div_mod_to_equations. lia.
    + Z.div_mod_to_equations. lia.
Qed.

Lemma time_columns_in_calendar_range_witness :
  exists time_df,
    time_parquet scenario_store = Some time_df /\
    forall r, In r time_df ->
      0 <= TimeTable.hour r <= 23 /\
      exists y m d k,
        TimeTable.year r = decimal y /\ 1 <= y <= 9999 /\
        TimeTable.month r = decimal m /\ 1 <= m <= 12 /\
        TimeTable.day r = decimal d /\ 1 <= d <= 31 /\
        TimeTable.weekday r = decimal k /\ 1 <= k <= 5.
Proof.
  apply (time_columns_in_calendar_range utc_engine scenario empty_store scenario_store).
  vm_compute. reflexivity.
Defined.

(** X14. After a completed run the year and month under which a
    songplays row is partitioned are those of its own [start_time], which
    is never null. *)
Theorem songplays_partition_of_own_start_time :
  forall E inp s s',
    main E inp s = (Ok tt, s') ->
    exists sp,
      songplays_parquet s' = Some sp /\
      forall r, In r sp ->
        exists ms,
          SongplaysTable.start_time r = Some ms /\
          songplays_partition r = (date_format E ms "y", date_format E ms "M").
Proof.
  intros E inp s s' Hrun.
  destruct (main_completed E inp s s' Hrun) as (time_df & Htime & ->).
  eexists. split; [reflexivity|]. intros r Hr.
  apply songplays_row_origin in Hr.
  destruct Hr as (idx & e & o & t & _ & Ht & Heq & ->).
  apply sql_eq_long_true in Heq. destruct Heq as (v & Hev & Htv).
  destruct (time_table_rows E _ time_df t Htime Ht) as (ms & _ & Hrow).
  destruct (time_row_inv E _ t Hrow) as (ms' & Hms & _ & ->).
  inversion Hms; subst ms'. simpl in Htv. inversion Htv; subst v.
  exists ms. split; [exact Hev|reflexivity].
Qed.

Lemma songplays_partition_of_own_start_time_witness :
  exists sp,
    songplays_parquet scenario_store = Some sp /\
    forall r, In r sp ->
      exists ms,
        SongplaysTable.start_time r = Some ms /\
        songplays_partition r =
        (date_format utc_engine ms "y", date_format utc_engine ms "M").
Proof.
  apply (songplays_partition_of_own_start_time utc_engine scenario empty_store
           scenario_store).
  vm_compute. reflexivity.
Defined.

(** ** What depends on the engine and what does not *)

(** X15. When no two catalog records share their [(song_id, artist_id)]
    pair, the songs table is the projection of the whole catalog, record by
    record, whatever the engine: nothing is dropped. *)
Theorem songs_table_keeps_distinct_pairs :
  forall E inp s,
    NoDup (map (fun c => (Song.song_id c, Song.artist_id c)) (song_data inp)) ->
    songs_parquet (snd (main E inp s)) = Some (map select_songs (song_data inp)).
Proof.
  intros E inp s Hnd.
  assert (Heq : songs_table E (song_data inp) = map select_songs (song_data inp)).
  { unfold songs_table.
    apply (dropDuplicates_distinct_keys songs_key pair_key_eqb pair_key_eqb_spec).
    rewrite map_map. exact Hnd. }
  rewrite <- Heq. apply main_writes_dimensions.
Qed.

Lemma songs_table_keeps_distinct_pairs_witness :
  songs_parquet (snd (main other_engine shared_song_id empty_store)) =
  Some (map select_songs (song_data shared_song_id)).
Proof.
  apply (songs_table_keeps_distinct_pairs other_engine shared_song_id empty_store).
  simpl. constructor.
  - intros [H|[]]. discriminate.
  - constructor; [intros []|constructor].
Defined.

(** X16. After a completed run no table made by deduplication is longer
    than what it was made from: songs and artists have at most as many rows
    as the catalog has records, users and time at most as many as there are
    "NextSong" events, themselves at most as many as the log has records. *)
Theorem tables_no_longer_than_inputs :
  forall E inp s s',
    main E inp s = (Ok tt, s') ->
    exists songs artists users time_df,
      songs_parquet s' = Some songs /\
      artists_parquet s' = Some artists /\
      users_parquet s' = Some users /\
      time_parquet s' = Some time_df /\
      (length songs <= length (song_data inp))%nat /\
      (length artists <= length (song_data inp))%nat /\
      (length users <= length (where_NextSong (log_data inp)))%nat /\
      (length time_df <= length (where_NextSong (log_data inp)))%nat /\
      (length (where_NextSong (log_data inp)) <= length (log_data inp))%nat.
Proof.
  intros E inp s s' Hrun.
  destruct (main_completed E inp s s' Hrun) as (time_df & Htime & ->).
  do 4 eexists. do 4 (split; [reflexivity|]).
  split; [|split; [|split; [|split]]].
  - unfold songs_table.
    rewrite <- (length_map select_songs (song_data inp)).
    apply dropDuplicates_length. exact pair_key_eqb_spec.
  - unfold artists_table.
    rewrite <- (length_map select_artists (song_data inp)).
    rewrite (Permutation_length
               (orderBy_Permutation _ ArtistsTable.artist_id
                  (map select_artists (song_data inp)))).
    apply dropDuplicates_length. exact string_key_eqb_spec.
  - unfold users_table.
    rewrite <- (length_map select_users (where_NextSong (log_data inp))).
    apply dropDuplicates_length. exact long_key_eqb_spec.
  - rewrite <- (length_map TimeTable.ts time_df), (time_table_ts E _ time_df Htime).
    unfold distinct_ts.
    rewrite <- (length_map Log.ts (where_NextSong (log_data inp))).
    apply dropDuplicates_length. exact long_key_eqb_spec.
  - unfold where_NextSong. apply filter_length_le.
Qed.

Lemma tables_no_longer_than_inputs_witness :
  exists songs artists users time_df,
    songs_parquet (snd (main utc_engine repeated_scenario empty_store)) = Some songs /\
    artists_parquet (snd (main utc_engine repeated_scenario empty_store)) = Some artists /\
    users_parquet (snd (main utc_engine repeated_scenario empty_store)) = Some users /\
    time_parquet (snd (main utc_engine repeated_scenario empty_store)) = Some time_df /\
    (length songs <= length (song_data repeated_scenario))%nat /\
    (length artists <= length (song_data repeated_scenario))%nat /\
    (length users <= length (where_NextSong (log_data repeated_scenario)))%nat /\
    (length time_df <= length (where_NextSong (log_data repeated_scenario)))%nat /\
    (length (where_NextSong (log_data repeated_scenario))
     <= length (log_data repeated_scenario))%nat.
Proof.
  apply (tables_no_longer_than_inputs utc_engine repeated_scenario empty_store
           (snd (main utc_engine repeated_scenario empty_store))).
  vm_compute. reflexivity.
Defined.

Lemma local_second_ext :
  forall E1 E2,
    (forall x, utc_offset E1 x = utc_offset E2 x) ->
    forall dt, local_second E1 dt = local_second E2 dt.
Proof. intros E1 E2 Hoff dt. unfold local_second. rewrite Hoff. reflexivity. Qed.

Lemma time_row_ext :
  forall E1 E2,
    (forall x, utc_offset E1 x = utc_offset E2 x) ->
    (forall x, week_of_year E1 x = week_of_year E2 x) ->
    forall x, time_row E1 x = time_row E2 x.
Proof.
  intros E1 E2 Hoff Hweek x. unfold time_row.
  assert (Hg : get_timestamp E1 x = get_timestamp E2 x).
  { destruct x as [ms|]; [|reflexivity].
    unfold get_timestamp, local_date, local_day.
    rewrite (local_second_ext E1 E2 Hoff ms). reflexivity. }
  rewrite Hg. destruct (get_timestamp E2 x) as [dt|e]; [|reflexivity].
  unfold date_format, hour, local_date, local_day.
  rewrite (local_second_ext E1 E2 Hoff dt), Hweek. reflexivity.
Qed.

Lemma traverse_ext :
  forall (A B : Type) (f g : A -> outcome B) l,
    (forall x, f x = g x) -> traverse f l = traverse g l.
Proof.
  intros A B f g l H. induction l as [|x l IH]; simpl; [reflexivity|].
  rewrite H, IH. reflexivity.
Qed.

Lemma time_table_ext :
  forall E1 E2 df,
    (forall x, utc_offset E1 x = utc_offset E2 x) ->
    (forall x, week_of_year E1 x = week_of_year E2 x) ->
    time_table E1 df = time_table E2 df.
Proof.
  intros E1 E2 df Hoff Hweek. unfold time_table, distinct_ts.
  rewrite (dropDuplicates_exact_duplicates (fun x : option Z => x) long_key_eqb
             long_key_eqb_spec (tie_break E1 "time") (tie_break E2 "time"))
    by (intros x y _ _ Hxy; exact Hxy).
  apply traverse_ext. apply time_row_ext; assumption.
Qed.

(** X17. The time table does not depend on the row the engine keeps among
    duplicates nor on its numbering of rows: two engines with the same time
    zone and the same week numbering build the same time table, or fail
    with the same error, on every log. *)
Theorem time_table_ignores_engine_choices :
  forall E1 E2 log,
    (forall x, utc_offset E1 x = utc_offset E2 x) ->
    (forall x, week_of_year E1 x = week_of_year E2 x) ->
    time_table E1 (where_NextSong log) = time_table E2 (where_NextSong log).
Proof.
  intros E1 E2 log Hoff Hweek. apply time_table_ext; assumption.
Qed.

Lemma time_table_ignores_engine_choices_witness :
  time_table utc_engine (where_NextSong two_fridays) =
  time_table other_engine (where_NextSong two_fridays).
Proof.
  apply (time_table_ignores_engine_choices utc_engine other_engine two_fridays);
    intro x; unfold utc_engine, other_engine; simpl; reflexivity.
Defined.

Lemma songplays_table_up_to_id :
  forall time_df c1 c2,
    Forall2 (fun p q =>
               Songplays.start_time p = Songplays.start_time q /\
               forall t, forget_songplay_id (select_songplays_table p t) =
                         forget_songplay_id (select_songplays_table q t)) c1 c2 ->
    map forget_songplay_id (songplays_table c1 time_df) =
    map forget_songplay_id (songplays_table c2 time_df).
Proof.
  intros time_df c1 c2 H. unfold songplays_table.
  induction H as [|p q c1 c2 [Hstart Hrow] _ IH]; [reflexivity|].
  cbn [flat_map]. rewrite !map_app, IH. f_equal.
  unfold time_matches. rewrite Hstart, !map_map. apply map_ext. exact Hrow.
Qed.

Lemma songplays_up_to_id :
  forall E1 E2 df song_df,
    Forall2 (fun p q =>
               Songplays.start_time p = Songplays.start_time q /\
               forall t, forget_songplay_id (select_songplays_table p t) =
                         forget_songplay_id (select_songplays_table q t))
      (songplays E1 df song_df) (songplays E2 df song_df).
Proof.
  intros E1 E2 df song_df.
  unfold songplays, songplays_all_columns, monotonically_increasing_id.
  pose proof (with_ids_same_rows _ (id_gap E1) (id_gap E2) (left_join df song_df)
                0%nat 0%nat 0 0) as H.
  induction H as [|[i [e o]] [j [e' o']] l1 l2 Hsnd _ IH]; [constructor|].
  simpl in Hsnd. inversion Hsnd; subst. cbn [map]. constructor; [|exact IH].
  split; reflexivity.
Qed.

(** X18. When records that share a key are equal on the projected
    columns (same song for a [(song_id, artist_id)] pair, same artist for
    an [artist_id], same user for a [userId] among "NextSong" events), two
    completed runs on the same input by engines with the same time zone and
    week numbering leave the same songs, artists, users and time tables,
    and songplays tables that hold the same rows, each as many times,
    once the [songplay_id] is set aside. *)
Theorem runs_agree_up_to_songplay_id :
  forall E1 E2 inp s1 s2 s1' s2',
    (forall x, utc_offset E1 x = utc_offset E2 x) ->
    (forall x, week_of_year E1 x = week_of_year E2 x) ->
    (forall c1 c2, In c1 (song_data inp) -> In c2 (song_data inp) ->
       Song.song_id c1 = Song.song_id c2 -> Song.artist_id c1 = Song.artist_id c2 ->
       select_songs c1 = select_songs c2) ->
    (forall c1 c2, In c1 (song_data inp) -> In c2 (song_data inp) ->
       Song.artist_id c1 = Song.artist_id c2 -> select_artists c1 = select_artists c2) ->
    (forall e1 e2, In e1 (where_NextSong (log_data inp)) ->
       In e2 (where_NextSong (log_data inp)) ->
       Log.userId e1 = Log.userId e2 -> select_users e1 = select_users e2) ->
    main E1 inp s1 = (Ok tt, s1') ->
    main E2 inp s2 = (Ok tt, s2') ->
    songs_parquet s1' = songs_parquet s2' /\
    artists_parquet s1' = artists_parquet s2' /\
    users_parquet s1' = users_parquet s2' /\
    time_parquet s1' = time_parquet s2' /\
    exists sp1 sp2,
      songplays_parquet s1' = Some sp1 /\
      songplays_parquet s2' = Some sp2 /\
      Permutation (map forget_songplay_id sp1) (map forget_songplay_id sp2).
Proof.
  intros E1 E2 inp s1 s2 s1' s2' Hoff Hweek Hsongs Hartists Husers Hrun1 Hrun2.
  destruct (main_completed E1 inp s1 s1' Hrun1) as (t1 & Ht1 & ->).
  destruct (main_completed E2 inp s2 s2' Hrun2) as (t2 & Ht2 & ->).
  rewrite (time_table_ext E1 E2 _ Hoff Hweek) in Ht1.
  rewrite Ht1 in Ht2. inversion Ht2; subst t2. clear Ht2.
  assert (Hs : songs_table E1 (song_data inp) = songs_table E2 (song_data inp)).
  { unfold songs_table.
    apply (dropDuplicates_exact_duplicates songs_key pair_key_eqb pair_key_eqb_spec).
    intros x y Hx Hy Hkey. apply in_map_iff in Hx. apply in_map_iff in Hy.
    destruct Hx as (c1 & <- & Hc1). destruct Hy as (c2 & <- & Hc2).
    unfold songs_key in Hkey. simpl in Hkey. inversion Hkey.
    apply Hsongs; assumption. }
  assert (Ha : artists_table E1 (song_data inp) = artists_table E2 (song_data inp)).
  { unfold artists_table.
    apply (dropDuplicates_exact_duplicates ArtistsTable.artist_id string_key_eqb
             string_key_eqb_spec).
    intros x y Hx Hy Hkey. apply orderBy_In in Hx. apply orderBy_In in Hy.
    apply in_map_iff in Hx. apply in_map_iff in Hy.
    destruct Hx as (c1 & <- & Hc1). destruct Hy as (c2 & <- & Hc2).
    simpl in Hkey. apply Hartists; assumption. }
  assert (Hu : users_table E1 (where_NextSong (log_data inp)) =
               users_table E2 (where_NextSong (log_data inp))).
  { unfold users_table.
    apply (dropDuplicates_exact_duplicates UsersTable.userId long_key_eqb
             long_key_eqb_spec).
    intros x y Hx Hy Hkey. apply in_map_iff in Hx. apply in_map_iff in Hy.
    destruct Hx as (e1 & <- & He1). destruct Hy as (e2 & <- & He2).
    simpl in Hkey. apply Husers; assumption. }
  cbn [songs_parquet artists_parquet users_parquet time_parquet songplays_parquet].
  rewrite Hs, Ha, Hu. do 4 (split; [reflexivity|]).
  eexists. eexists. split; [reflexivity|]. split; [reflexivity|].
  rewrite (songplays_table_up_to_id t1 _ _
             (songplays_up_to_id E1 E2 (where_NextSong (log_data inp))
                (songs_table E2 (song_data inp)))).
  apply Permutation_refl.
Qed.

Lemma runs_agree_up_to_songplay_id_witness :
  songs_parquet (snd (main utc_engine shared_song_id empty_store)) =
  songs_parquet (snd (main other_engine shared_song_id scenario_store)) /\
  artists_parquet (snd (main utc_engine shared_song_id empty_store)) =
  artists_parquet (snd (main other_engine shared_song_id scenario_store)) /\
  users_parquet (snd (main utc_engine shared_song_id empty_store)) =
  users_parquet (snd (main other_engine shared_song_id scenario_store)) /\
  time_parquet (snd (main utc_engine shared_song_id empty_store)) =
  time_parquet (snd (main other_engine shared_song_id scenario_store)) /\
  exists sp1 sp2,
    songplays_parquet (snd (main utc_engine shared_song_id empty_store)) = Some sp1 /\
    songplays_parquet (snd (main other_engine shared_song_id scenario_store)) =
    Some sp2 /\
    Permutation (map forget_songplay_id sp1) (map forget_songplay_id sp2).
Proof.
  apply (runs_agree_up_to_songplay_id utc_engine other_engine shared_song_id
           empty_store scenario_store).
  - intro x. unfold utc_engine, other_engine. simpl. reflexivity.
  - intro x. unfold utc_engine, other_engine. simpl. reflexivity.
  - intros c1 c2 [<-|[<-|[]]] [<-|[<-|[]]] _ Ha; try reflexivity; discriminate Ha.
  - intros c1 c2 [<-|[<-|[]]] [<-|[<-|[]]] Ha; try reflexivity; discriminate Ha.
  - intros e1 e2 [<-|[]] [<-|[]] _; reflexivity.
  - vm_compute. reflexivity.
  - vm_compute. reflexivity.
Defined.

(** ** Time table: the date read back *)

(** X19. After a completed run the [year], [month], [day] and [hour] of
    a time row locate its [ts] in local time: counting whole seconds, the
    [ts] shifted by the offset of the time zone falls in the hour [hour] of
    the epoch day that [days_from_civil] gives for [year], [month] and
    [day]. *)
Theorem time_columns_locate_ts :
  forall E inp s s',
    main E inp s = (Ok tt, s') ->
    exists time_df,
      time_parquet s' = Some time_df /\
      forall r, In r time_df ->
        exists ms y m d rest,
          TimeTable.ts r = Some ms /\
          TimeTable.year r = decimal y /\
          TimeTable.month r = decimal m /\
          TimeTable.day r = decimal d /\
          0 <= rest < 3600 /\
          ms / 1000 + utc_offset E (ms / 1000) =
          86400 * days_from_civil y m d + 3600 * TimeTable.hour r + rest.
Proof.
  intros E inp s s' Hrun.
  destruct (main_completed E inp s s' Hrun) as (time_df & Htime & ->).
  exists time_df. split; [reflexivity|]. intros r Hr.
  destruct (time_table_rows E _ time_df r Htime Hr) as (ms & _ & Hrow).
  destruct (time_row_inv E _ r Hrow) as (ms' & Heq & _ & ->).
  inversion Heq; subst ms'.
  destruct (local_date E ms) as [[y m] d] eqn:Hdate.
  pose proof (days_from_civil_inverts_civil_from_days (local_day E ms)) as Hback.
  unfold local_date in Hdate. rewrite Hdate in Hback. fold (local_date E ms) in Hdate.
  exists ms, y, m, d, ((local_second E ms mod 86400) mod 3600).
  cbn [TimeTable.ts TimeTable.year TimeTable.month TimeTable.day TimeTable.hour].
  rewrite (date_format_year E _ _ _ _ Hdate), (date_format_month E _ _ _ _ Hdate),
    (date_format_day E _ _ _ _ Hdate).
  split; [reflexivity|]. split; [reflexivity|]. split; [reflexivity|].
  split; [reflexivity|]. rewrite Hback. unfold hour, local_day.
  change (ms / 1000 + utc_offset E (ms / 1000)) with (local_second E ms).
  split.
  - apply Z.mod_pos_bound. lia.
  - pose proof (Z.div_mod (local_second E ms) 86400) as H1.
    pose proof (Z.div_mod (local_second E ms mod 86400) 3600) as H2.
    lia.
Qed.

Lemma time_columns_locate_ts_witness :
  exists time_df,
    time_parquet scenario_store = Some time_df /\
    forall r, In r time_df ->
      exists ms y m d rest,
        TimeTable.ts r = Some ms /\
        TimeTable.year r = decimal y /\
        TimeTable.month r = decimal m /\
        TimeTable.day r = decimal d /\
        0 <= rest < 3600 /\
        ms / 1000 + utc_offset utc_engine (ms / 1000) =
        86400 * days_from_civil y m d + 3600 * TimeTable.hour r + rest.
Proof.
  apply (time_columns_locate_ts utc_engine scenario empty_store scenario_store).
  vm_compute. reflexivity.
Defined.

(** ** The songplays table and the time columns, as [main] writes them *)

(** C2. After a completed run the songplays table is the left join of
    the "NextSong" events to the songs table of the same run on
    [song == song_id]: an event and a songs row whose [song_id] is the
    event's [song] text give a row with that [song_id]; an event that no
    songs row matches gives a row with null [song_id] and [artist_id]; and
    every row of the table is of one of these two kinds, for an event
    whose page is "NextSong". *)
Theorem left_join_on_song_id_keeps_unmatched :
  forall E inp s s',
    main E inp s = (Ok tt, s') ->
    exists songs sp,
      songs_parquet s' = Some songs /\
      songplays_parquet s' = Some sp /\
      (forall e t v,
          In e (log_data inp) -> Log.page e = Some "NextSong" -> In t songs ->
          Log.song e = Some v -> SongsTable.song_id t = Some v ->
          exists r, In r sp /\ carries_event r e /\ SongplaysTable.song_id r = Some v) /\
      (forall e,
          In e (log_data inp) -> Log.page e = Some "NextSong" ->
          (forall t v, In t songs ->
                       ~ (Log.song e = Some v /\ SongsTable.song_id t = Some v)) ->
          exists r, In r sp /\ carries_event r e /\
                    SongplaysTable.song_id r = None /\
                    SongplaysTable.artist_id r = None) /\
      (forall r, In r sp ->
          exists e,
            In e (log_data inp) /\ Log.page e = Some "NextSong" /\ carries_event r e /\
            ((SongplaysTable.song_id r = None /\ SongplaysTable.artist_id r = None /\
              forall t v, In t songs ->
                          ~ (Log.song e = Some v /\ SongsTable.song_id t = Some v)) \/
             (exists t v,
                 In t songs /\ Log.song e = Some v /\ SongsTable.song_id t = Some v /\
                 SongplaysTable.song_id r = Some v))).
Proof.
  intros E inp s s' Hrun.
  destruct (main_completed E inp s s' Hrun) as (time_df & Htime & ->).
  set (df := where_NextSong (log_data inp)) in *.
  set (songs := songs_table E (song_data inp)) in *.
  exists songs. eexists. split; [reflexivity|]. split; [reflexivity|].
  assert (Hwritten : forall e o,
             In (e, o) (left_join df songs) ->
             exists idx t,
               In (select_songplays_table (select_songplays (idx, (e, o))) t)
                  (songplays_table (songplays E df songs) time_df)).
  { intros e o Hjoin.
    destruct (with_ids_In _ (id_gap E) _ 0%nat 0 _ Hjoin) as (idx & Hidx).
    assert (Hp : In (select_songplays (idx, (e, o))) (songplays E df songs))
      by (unfold songplays; apply in_map; exact Hidx).
    destruct (candidate_is_written E df songs time_df _ Htime Hp) as (t & _ & _ & Hr).
    exists idx, t. exact Hr. }
  assert (Hnone : forall e,
             song_matches songs e = [] <->
             forall t v, In t songs ->
                         ~ (Log.song e = Some v /\ SongsTable.song_id t = Some v)).
  { intro e. split.
    - intros Hnil t v Ht [Hsong Hid].
      assert (Hin : In t (song_matches songs e)).
      { unfold song_matches. apply filter_In. split; [exact Ht|].
        apply sql_eq_string_true. eauto. }
      rewrite Hnil in Hin. contradiction.
    - intro Hno. destruct (song_matches songs e) as [|t ms] eqn:Hm; [reflexivity|].
      assert (Hin : In t (song_matches songs e)) by (rewrite Hm; simpl; auto).
      unfold song_matches in Hin. apply filter_In in Hin. destruct Hin as [Ht Heq].
      apply sql_eq_string_true in Heq. destruct Heq as (v & Hsong & Hid).
      exfalso. apply (Hno t v Ht). auto. }
  split; [|split].
  - intros e t v He Hpage Ht Hsong Hid.
    assert (Hjoin : In (e, Some t) (left_join df songs)).
    { apply left_join_In. split; [apply where_NextSong_In; auto|].
      split; [exact Ht|]. apply sql_eq_string_true. eauto. }
    destruct (Hwritten e (Some t) Hjoin) as (idx & t' & Hr).
    eexists. split; [exact Hr|]. split; [repeat split|simpl; exact Hid].
  - intros e He Hpage Hno.
    assert (Hjoin : In (e, @None SongsTable.row) (left_join df songs)).
    { apply left_join_In. split; [apply where_NextSong_In; auto|].
      apply Hnone. exact Hno. }
    destruct (Hwritten e None Hjoin) as (idx & t' & Hr).
    eexists. split; [exact Hr|]. split; [repeat split|simpl; auto].
  - intros r Hr. apply songplays_row_origin in Hr.
    destruct Hr as (idx & e & o & t & Hjoin & _ & _ & ->).
    apply left_join_In in Hjoin. destruct Hjoin as [He Ho].
    apply where_NextSong_In in He. destruct He as [He Hpage].
    exists e. split; [exact He|]. split; [exact Hpage|]. split; [repeat split|].
    destruct o as [t0|].
    + right. destruct Ho as [Ht0 Heq]. apply sql_eq_string_true in Heq.
      destruct Heq as (v & Hsong & Hid). exists t0, v. simpl. auto.
    + left. simpl. split; [reflexivity|]. split; [reflexivity|].
      apply Hnone. exact Ho.
Qed.

Lemma left_join_on_song_id_keeps_unmatched_witness :
  exists songs sp,
    songs_parquet (snd (main utc_engine shared_song_id empty_store)) = Some songs /\
    songplays_parquet (snd (main utc_engine shared_song_id empty_store)) = Some sp /\
    (forall e t v,
        In e (log_data shared_song_id) -> Log.page e = Some "NextSong" -> In t songs ->
        Log.song e = Some v -> SongsTable.song_id t = Some v ->
        exists r, In r sp /\ carries_event r e /\ SongplaysTable.song_id r = Some v) /\
    (forall e,
        In e (log_data shared_song_id) -> Log.page e = Some "NextSong" ->
        (forall t v, In t songs ->
                     ~ (Log.song e = Some v /\ SongsTable.song_id t = Some v)) ->
        exists r, In r sp /\ carries_event r e /\
                  SongplaysTable.song_id r = None /\
                  SongplaysTable.artist_id r = None) /\
    (forall r, In r sp ->
        exists e,
          In e (log_data shared_song_id) /\ Log.page e = Some "NextSong" /\
          carries_event r e /\
          ((SongplaysTable.song_id r = None /\ SongplaysTable.artist_id r = None /\
            forall t v, In t songs ->
                        ~ (Log.song e = Some v /\ SongsTable.song_id t = Some v)) \/
           (exists t v,
               In t songs /\ Log.song e = Some v /\ SongsTable.song_id t = Some v /\
               SongplaysTable.song_id r = Some v))).
Proof.
  apply (left_join_on_song_id_keeps_unmatched utc_engine shared_song_id empty_store
           (snd (main utc_engine shared_song_id empty_store))).
  vm_compute. reflexivity.
Defined.

(** C3 (amended). After a completed run the songplays table holds, for
    each "NextSong" event and as many times as the event occurs, as many
    rows as there are rows in the songs table of the same run whose
    [song_id] equals the event's [song] text, and one row when there is
    none, and it holds no other row: no event is lost, the join with the
    time table repeats none, and there is exactly one row per event as soon
    as no event matches two songs rows. *)
Theorem songplays_rows_per_event :
  forall E inp s s',
    main E inp s = (Ok tt, s') ->
    let df := where_NextSong (log_data inp) in
    exists songs sp,
      songs_parquet s' = Some songs /\
      songplays_parquet s' = Some sp /\
      Permutation (map written_columns sp) (flat_map (rows_owed songs) df) /\
      length sp = list_sum (map (rows_of_event songs) df) /\
      (length df <= length sp)%nat /\
      ((forall e, In e df -> (length (song_matches songs e) <= 1)%nat) ->
       length sp = length df /\
       Permutation (map written_columns sp)
         (map (fun e => event_columns e
                          match song_matches songs e with
                          | [] => None
                          | _ :: _ => Log.song e
                          end) df)).
Proof.
  intros E inp s s' Hrun df.
  destruct (main_completed E inp s s' Hrun) as (time_df & Htime & ->).
  fold df in Htime. fold df.
  set (songs := songs_table E (song_data inp)).
  exists songs. eexists. split; [reflexivity|]. split; [reflexivity|].
  pose proof (written_columns_of_run E df songs time_df Htime) as Hcols.
  assert (Hlen : length (songplays_table (songplays E df songs) time_df) =
                 list_sum (map (rows_of_event songs) df)).
  { rewrite <- songplays_length with (E := E).
    rewrite <- (join_keeps_all (songplays E df songs) time_df) at 2.
    - rewrite length_map. reflexivity.
    - intros p Hp. apply (candidate_has_one_match E df songs time_df p Htime Hp). }
  split; [rewrite Hcols; apply Permutation_refl|].
  split; [exact Hlen|]. split.
  - rewrite Hlen. apply list_sum_at_least. intros e _. unfold rows_of_event. lia.
  - intro Hone. split.
    + rewrite Hlen. apply list_sum_all_one.
      intros e He. unfold rows_of_event. specialize (Hone e He). lia.
    + rewrite Hcols. clear Hcols Hlen Htime.
      induction df as [|e df IH]; [apply Permutation_refl|].
      cbn [flat_map map].
      assert (Hhead : rows_owed songs e =
                      [event_columns e match song_matches songs e with
                                       | [] => None
                                       | _ :: _ => Log.song e
                                       end]).
      { unfold rows_owed. specialize (Hone e (or_introl eq_refl)).
        destruct (song_matches songs e) as [|t [|t' ms]]; simpl in *;
          [reflexivity|reflexivity|lia]. }
      rewrite Hhead. simpl. apply perm_skip. apply IH.
      intros x Hx. apply Hone. simpl. auto.
Qed.

Lemma songplays_rows_per_event_witness :
  exists songs sp,
    songs_parquet (snd (main utc_engine shared_song_id empty_store)) = Some songs /\
    songplays_parquet (snd (main utc_engine shared_song_id empty_store)) = Some sp /\
    Permutation (map written_columns sp)
      (flat_map (rows_owed songs) (where_NextSong (log_data shared_song_id))) /\
    length sp =
    list_sum (map (rows_of_event songs) (where_NextSong (log_data shared_song_id))) /\
    (length (where_NextSong (log_data shared_song_id)) <= length sp)%nat /\
    ((forall e, In e (where_NextSong (log_data shared_song_id)) ->
                (length (song_matches songs e) <= 1)%nat) ->
     length sp = length (where_NextSong (log_data shared_song_id)) /\
     Permutation (map written_columns sp)
       (map (fun e => event_columns e
                        match song_matches songs e with
                        | [] => None
                        | _ :: _ => Log.song e
                        end) (where_NextSong (log_data shared_song_id)))).
Proof.
  apply (songplays_rows_per_event utc_engine shared_song_id empty_store
           (snd (main utc_engine shared_song_id empty_store))).
  vm_compute. reflexivity.
Defined.



